(** * kanzi: path enumeration, directory creation and the entropy-encoder
      contract

    A shallow embedding of [src/cpp/src/io/IOUtil.hpp] ([createFileList],
    [mkdirAll]) and of the interface of [src/cpp/src/EntropyEncoder.hpp].

    The C++ code talks to the operating system through [stat], [opendir],
    [readdir] and [_mkdir].  Those calls are the environment of the program:
    [createFileList] only reads the file system, so it is modelled over a
    snapshot ([FileSystem]); [mkdirAll] changes it, so it threads a world and
    [errno] through every call. *)

From Stdlib Require Import ZArith List String Ascii Bool Lia.
Import ListNotations.

Local Open Scope string_scope.
Local Open Scope Z_scope.

(* ================================================================== *)
(** ** std::string, as the two functions use it *)

Module Str.

(** [size_t] is 64 bits wide. *)
Definition SIZE_WIDTH : Z := 64.

Definition size (s : string) : Z := Z.of_nat (String.length s).

(** [a - b] on two sizes.  Sizes are below 2^64, so the difference wraps
    exactly when [a < b]. *)
Definition size_sub (a b : Z) : Z :=
  if a <? b then a - b + 2 ^ SIZE_WIDTH else a - b.

Definition NUL : ascii := Ascii.zero.

(** [s[pos]]: the character at [pos] for [pos < size()], a reference to
    the terminating NUL for [pos == size()], and undefined behaviour
    ([None]) beyond. *)
Definition at_ (s : string) (pos : Z) : option ascii :=
  if pos <? size s then String.get (Z.to_nat pos) s
  else if pos =? size s then Some NUL
  else None.

(** [s.substr(pos, count)] for [pos <= size()]; [count] is clipped to the
    characters that are there. *)
Definition substr (s : string) (pos count : Z) : string :=
  String.substring (Z.to_nat pos) (Z.to_nat (Z.min count (size s - pos))) s.

(** [d_name[0]] of a NUL-terminated character array. *)
Definition first (s : string) : ascii :=
  match s with
  | EmptyString => NUL
  | String c _ => c
  end.

End Str.

(* ================================================================== *)
(** ** <sys/stat.h> *)

(** The file-type bits of [st_mode].  The header is a system header; the
    values are the ones every C library that ships [<direct.h>] and
    [_mkdir] uses (and POSIX systems as well). *)
Definition S_IFMT  : Z := 0xF000.
Definition S_IFREG : Z := 0x8000.
Definition S_IFDIR : Z := 0x4000.
Definition S_IFCHR : Z := 0x2000.
Definition S_IFIFO : Z := 0x1000.

(** The tests the code writes: [(buffer.st_mode & S_IFREG) != 0] and
    [(buffer.st_mode & S_IFDIR) != 0]. *)
Definition has_IFREG (st_mode : Z) : bool := negb (Z.land st_mode S_IFREG =? 0).
Definition has_IFDIR (st_mode : Z) : bool := negb (Z.land st_mode S_IFDIR =? 0).

(** What [stat] means by a regular file and by a directory: the type field
    of the mode. *)
Definition S_ISREG (st_mode : Z) : bool := Z.land st_mode S_IFMT =? S_IFREG.
Definition S_ISDIR (st_mode : Z) : bool := Z.land st_mode S_IFMT =? S_IFDIR.

(** The file types this C library reports: regular file, directory,
    character device, pipe. *)
Definition crt_type (st_mode : Z) : bool :=
  let t := Z.land st_mode S_IFMT in
  (t =? S_IFREG) || (t =? S_IFDIR) || (t =? S_IFCHR) || (t =? S_IFIFO).

(* ================================================================== *)
(** ** The file system [createFileList] reads *)

(** [fs_stat p] is [Some st_mode] when [stat(p, &buffer)] returns 0 and
    [None] when it fails.  [fs_opendir p] is the sequence of [d_name]s that
    successive [readdir] calls return, or [None] when [opendir] returns
    a null pointer. *)
Record FileSystem : Type := {
  fs_stat : string -> option Z;
  fs_opendir : string -> option (list string)
}.

(** Error.hpp codes used here and the exception that carries them. *)
Inductive Error : Type := ERR_OPEN_FILE | ERR_READ_FILE.

Record IOException : Type := {
  what : string;
  error : Error
}.

(** How a call ends: it returns, it throws, it indexes a string out of
    bounds, or (for the model only) the recursion budget is used up. *)
Inductive outcome : Type :=
| Done
| Raised (e : IOException)
| Undefined
| Diverge.

Section CreateFileList.

Variable PATH_SEPARATOR : ascii.
Variable fs : FileSystem.

(** Line 62-63.  The disjunction short-circuits, so the two indexings
    only happen when [size() > 2]. *)
Definition isRecursive (target : string) : option bool :=
  if Str.size target <=? 2 then Some true
  else
    match Str.at_ target (Str.size_sub (Str.size target) 1) with
    | None => None
    | Some c1 =>
        if negb (Ascii.eqb c1 ".") then Some true
        else
          match Str.at_ target (Str.size_sub (Str.size target) 2) with
          | None => None
          | Some c2 => Some (negb (Ascii.eqb c2 PATH_SEPARATOR))
          end
    end.

(** Lines 38-39: strip one trailing separator. *)
Definition strip (target : string) : option string :=
  match Str.at_ target (Str.size_sub (Str.size target) 1) with
  | None => None
  | Some c =>
      if Ascii.eqb c PATH_SEPARATOR
      then Some (Str.substr target 0 (Str.size_sub (Str.size target) 1))
      else Some target
  end.

(** Lines 65-73: the directive becomes the directory prefix of the
    entries. *)
Definition normalize (isRec : bool) (target : string) : option string :=
  if isRec then
    match Str.at_ target (Str.size_sub (Str.size target) 1) with
    | None => None
    | Some c =>
        if negb (Ascii.eqb c PATH_SEPARATOR)
        then Some (target ++ String PATH_SEPARATOR "")
        else Some target
    end
  else Some (Str.substr target 0 (Str.size_sub (Str.size target) 1)).

Definition cannot_access (path : string) : IOException :=
  {| what := "Cannot access input file '" ++ path ++ "'";
     error := ERR_OPEN_FILE |}.

Definition invalid_type (path : string) : IOException :=
  {| what := "Invalid file type '" ++ path ++ "'";
     error := ERR_OPEN_FILE |}.

Definition cannot_read (path : string) : IOException :=
  {| what := "Cannot read directory '" ++ path ++ "'";
     error := ERR_READ_FILE |}.

(** Lines 79-97: the [readdir] loop over the entries of the opened
    directory.  [recurse] is the recursive call of line 94; it receives
    [fullpath] by reference, a local of the loop body, so only the
    accumulator and the way it ended come back. *)
Fixpoint readdirLoop
         (recurse : string -> list string -> string * list string * outcome)
         (isRec : bool) (target : string)
         (ents : list string) (files : list string)
  : list string * outcome :=
  match ents with
  | [] => (files, Done)
  | d_name :: rest =>
      let fullpath := target ++ d_name in
      match fs_stat fs fullpath with
      | None => (files, Raised (cannot_access (target ++ d_name)))
      | Some st_mode =>
          if negb (Ascii.eqb (Str.first d_name) ".") then
            if has_IFREG st_mode then
              readdirLoop recurse isRec target rest (files ++ [fullpath])
            else if isRec && has_IFDIR st_mode then
              match recurse fullpath files with
              | (_, files', Done) =>
                  readdirLoop recurse isRec target rest files'
              | (_, files', o) => (files', o)
              end
            else readdirLoop recurse isRec target rest files
          else readdirLoop recurse isRec target rest files
      end
  end.

(** [createFileList(target, files)].  Both arguments are references: the
    result carries the caller's [target] and [files] as the call leaves
    them, and how the call ended.  [fuel] bounds the depth of the
    recursion into subdirectories. *)
Fixpoint createFileList (fuel : nat) (target : string) (files : list string)
  : string * list string * outcome :=
  match fuel with
  | O => (target, files, Diverge)
  | S fuel' =>
      match strip target with
      | None => (target, files, Undefined)
      | Some target =>
          match fs_stat fs target with
          | None => (target, files, Raised (cannot_access target))
          | Some st_mode =>
              if has_IFREG st_mode then
                (* Target is regular file *)
                match Str.at_ target 0 with
                | None => (target, files, Undefined)
                | Some c =>
                    if negb (Ascii.eqb c ".")
                    then (target, (files ++ [target])%list, Done)
                    else (target, files, Done)
                end
              else if negb (has_IFDIR st_mode) then
                (* Target is neither regular file nor directory *)
                (target, files, Raised (invalid_type target))
              else
                match isRecursive target with
                | None => (target, files, Undefined)
                | Some isRec =>
                    match normalize isRec target with
                    | None => (target, files, Undefined)
                    | Some target =>
                        match fs_opendir fs target with
                        | Some ents =>
                            let (files', o) :=
                              readdirLoop (createFileList fuel') isRec
                                          target ents files in
                            (target, files', o)
                        | None =>
                            (target, files, Raised (cannot_read target))
                        end
                    end
                end
          end
      end
  end.

End CreateFileList.

(* ================================================================== *)
(** ** mkdirAll *)

Definition ENOENT : Z := 2.
Definition EEXIST : Z := 17.

(** The loop counter of [mkdirAll] is a [uint]. *)
Definition UINT_WIDTH : Z := 32.

Section MkdirAll.

Variable PATH_SEPARATOR : ascii.

(** The directory tree as the operating system holds it, and the system
    call behind [_mkdir(dirname)]: the tree afterwards, and [None] when
    the call returns 0 or [Some e] when it returns -1 with [errno] set
    to [e]. *)
Variable World : Type.
Variable sys_mkdir : World -> string -> World * option Z.

Record Process : Type := {
  world : World;
  errno : Z
}.

Definition set_errno (p : Process) (e : Z) : Process :=
  {| world := world p; errno := e |}.

Definition _mkdir (p : Process) (dirname : string) : Process * Z :=
  match sys_mkdir (world p) dirname with
  | (w, None) => ({| world := w; errno := errno p |}, 0)
  | (w, Some e) => ({| world := w; errno := e |}, -1)
  end.

(** Lines 112-121.  [Some r] is a [return r] from inside the loop, [None]
    falls through to the statement after it.  [i++] wraps at 2^32. *)
Fixpoint mkdirAll_for (fuel : nat) (path : string) (i : Z) (p : Process)
  : Process * option Z :=
  match fuel with
  | O => (p, None)
  | S fuel' =>
      if i <? Str.size path then
        match Str.at_ path i with
        | None => (p, None)
        | Some c =>
            if Ascii.eqb c PATH_SEPARATOR then
              let curPath := Str.substr path 0 i in
              let (p', r) := _mkdir p curPath in
              if negb (r =? 0) && negb (errno p' =? EEXIST)
              then (p', Some (-1))
              else mkdirAll_for fuel' path ((i + 1) mod 2 ^ UINT_WIDTH) p'
            else mkdirAll_for fuel' path ((i + 1) mod 2 ^ UINT_WIDTH) p
        end
      else (p, None)
  end.

(** [mkdirAll(path)]: the process afterwards and the value returned.  The
    loop runs once per character, which is what the C++ loop does for
    every path shorter than 2^32 characters. *)
Definition mkdirAll (p : Process) (path : string) : Process * Z :=
  let p := set_errno p 0 in
  match mkdirAll_for (String.length path) path 0 p with
  | (p, Some r) => (p, r)
  | (p, None) =>
      let (p', r) := _mkdir p path in
      if negb (r =? 0) && negb (errno p' =? EEXIST)
      then (p', -1)
      else (p', 0)
  end.

(** The calls of [mkdirAll] as one sequence with the early return. *)
Fixpoint run (p : Process) (ds : list string) : Process * option Z :=
  match ds with
  | [] => (p, None)
  | d :: ds' =>
      let (p', r) := _mkdir p d in
      if negb (r =? 0) && negb (errno p' =? EEXIST)
      then (p', Some (-1))
      else run p' ds'
  end.

(** The calls [mkdirAll] is written to make, in order: the prefix before
    every separator, then the whole path. *)
Fixpoint prefixes_from (path : string) (i : nat) (rest : string) : list string :=
  match rest with
  | EmptyString => []
  | String c rest' =>
      if Ascii.eqb c PATH_SEPARATOR
      then String.substring 0 i path :: prefixes_from path (S i) rest'
      else prefixes_from path (S i) rest'
  end.

Definition attempts (path : string) : list string :=
  (prefixes_from path 0 path ++ [path])%list.

(** Running a sequence of creations in which every failure is an
    already-exists one. *)
Inductive benign : World -> list string -> World -> Prop :=
| benign_nil w : benign w [] w
| benign_ok w d w' ds w'' :
    sys_mkdir w d = (w', None) -> benign w' ds w'' ->
    benign w (d :: ds) w''
| benign_exists w d w' ds w'' :
    sys_mkdir w d = (w', Some EEXIST) -> benign w' ds w'' ->
    benign w (d :: ds) w''.

(** A creation that fails with something other than already-exists. *)
Definition fails_hard (w : World) (d : string) : Prop :=
  exists w' e, sys_mkdir w d = (w', Some e) /\ e <> EEXIST.

End MkdirAll.

Arguments world {World} _.
Arguments errno {World} _.
Arguments set_errno {World} _ _.
Arguments _mkdir {World} _ _ _.
Arguments mkdirAll_for _ {World} _ _ _ _ _.
Arguments mkdirAll _ {World} _ _ _.
Arguments benign {World} _ _ _ _.
Arguments run {World} _ _ _.
Arguments fails_hard {World} _ _ _.

(* ================================================================== *)
(** ** Path algebra used to state the properties *)

Fixpoint contains (c : ascii) (s : string) : bool :=
  match s with
  | EmptyString => false
  | String c' s' => Ascii.eqb c' c || contains c s'
  end.

(** The last component of a path: what follows the last separator. *)
Fixpoint basename (sep : ascii) (s : string) : string :=
  match s with
  | EmptyString => EmptyString
  | String c s' =>
      if contains sep s' then basename sep s'
      else if Ascii.eqb c sep then s' else s
  end.

(** What precedes the last separator; [None] for a path without one. *)
Fixpoint dirname (sep : ascii) (s : string) : option string :=
  match s with
  | EmptyString => None
  | String c s' =>
      match dirname sep s' with
      | Some d => Some (String c d)
      | None => if Ascii.eqb c sep then Some EmptyString else None
      end
  end.

Definition hidden (name : string) : bool := Ascii.eqb (Str.first name) ".".

(** A path with [sep] appended, as in [D<sep>name]. *)
Definition slash (sep : ascii) (d : string) : string := d ++ String sep "".

(** Whether a non-empty string ends with the character [c]. *)
Fixpoint ends_with (c : ascii) (s : string) : bool :=
  match s with
  | EmptyString => false
  | String a EmptyString => Ascii.eqb a c
  | String _ s' => ends_with c s'
  end.

(** A path names a regular file when [stat] succeeds on it and the type
    field of the mode is S_IFREG. *)
Definition is_regular (fs : FileSystem) (path : string) : bool :=
  match fs_stat fs path with
  | Some m => S_ISREG m
  | None => false
  end.

(** An entry is listed when its name does not begin with a dot and its
    mode has the S_IFREG bit. *)
Definition listed (fs : FileSystem) (target name : string) : bool :=
  negb (hidden name) &&
  match fs_stat fs (target ++ name) with
  | Some m => has_IFREG m
  | None => false
  end.

(** A path [stat] answers for with the S_IFREG bit in the mode. *)
Definition stat_IFREG (fs : FileSystem) (p : string) : Prop :=
  exists m, fs_stat fs p = Some m /\ has_IFREG m = true.

(** A directory as [readdir] and [stat] present it: the entries in listing
    order, each with the mode [stat] reports for it and, for one that is a
    directory, what is listed below it. *)
Inductive listing : Type :=
| Empty
| Entry (d_name : string) (st_mode : Z) (below : listing) (rest : listing).

Fixpoint names (l : listing) : list string :=
  match l with
  | Empty => []
  | Entry d _ _ rest => d :: names rest
  end.

(** The entries line 93 recurses into: not hidden, without the S_IFREG
    bit, with the S_IFDIR bit. *)
Definition entered (d_name : string) (st_mode : Z) : bool :=
  negb (hidden d_name) && negb (has_IFREG st_mode) && has_IFDIR st_mode.

(** Levels of directories that are entered. *)
Fixpoint depth (l : listing) : nat :=
  match l with
  | Empty => 0%nat
  | Entry d m below rest =>
      Nat.max (if entered d m then S (depth below) else 0%nat) (depth rest)
  end.

(** The file system shows the listing [l] under the directory prefix
    [prefix]: [stat] reports every entry with its mode, and every entry
    that is entered has a name that is not empty and holds no separator,
    opens, and shows what the listing has below it. *)
Fixpoint shows (sep : ascii) (fs : FileSystem) (prefix : string) (l : listing)
  : Prop :=
  match l with
  | Empty => True
  | Entry d m below rest =>
      fs_stat fs (prefix ++ d) = Some m /\
      (entered d m = true ->
       d <> "" /\ contains sep d = false /\
       fs_opendir fs (slash sep (prefix ++ d)) = Some (names below) /\
       shows sep fs (slash sep (prefix ++ d)) below) /\
      shows sep fs prefix rest
  end.

(** What line 91 appends for a listing, in listing order: the entries
    that are not hidden and have the S_IFREG bit, each under [prefix],
    and, at the place of every entry that is entered, the same for the
    listing below it.  Hidden entries, files as well as directories, and
    entries with neither bit contribute nothing. *)
Fixpoint walk (sep : ascii) (prefix : string) (l : listing) : list string :=
  match l with
  | Empty => []
  | Entry d m below rest =>
      ((if hidden d then []
        else if has_IFREG m then [(prefix ++ d)%string]
        else if has_IFDIR m
        then walk sep (slash sep (prefix ++ d)%string) below
        else []) ++ walk sep prefix rest)%list
  end.

(* ================================================================== *)
(** ** A small directory tree for [_mkdir]

    Directories are recorded by the path they were created under.  Creating
    the empty path fails with ENOENT, an existing one with EEXIST, one
    whose parent is missing with ENOENT; a path without a directory part is
    created in the working directory and one directly under the root in the
    root, both of which always exist. *)
Module Tree.

Definition t : Type := list string.

Definition mem (d : string) (w : t) : bool := existsb (String.eqb d) w.

Definition mkdir (sep : ascii) (w : t) (d : string) : t * option Z :=
  if String.eqb d "" then (w, Some ENOENT)
  else if mem d w then (w, Some EEXIST)
  else
    match dirname sep d with
    | None | Some EmptyString => ((w ++ [d])%list, None)
    | Some parent =>
        if mem parent w then ((w ++ [d])%list, None)
        else (w, Some ENOENT)
    end.

End Tree.

(* ================================================================== *)
(** ** EntropyEncoder *)

Module EntropyEncoder.

(** Modelled from the spec: the output bit-stream ([OutputBitStream.hpp]
    is not part of the sources).  It is an append-only sink of bits:
    [writeBits(value, n)] appends the low [n] bits of [value], [written]
    is the number of bits appended so far, and the sink may refuse a
    write, which leaves it as it was. *)
Definition OutputBitStream : Type := list bool.

Inductive Failure : Type := StreamWrite | InvalidArgument.

Definition written (s : OutputBitStream) : nat := List.length s.

Definition low_bits (value : Z) (n : nat) : list bool :=
  List.map (fun i => Z.testbit value (Z.of_nat i)) (List.rev (List.seq 0 n)).

(** The declaration of line 29: [int encode(byte block[], uint blkptr,
    uint len)].  The two positions are 32-bit unsigned, the result is a
    32-bit signed [int]; [to_int] is the value an [int] holds when a count
    is stored in it. *)
Definition UINT_MAX : Z := 2 ^ 32 - 1.
Definition INT_MAX : Z := 2 ^ 31 - 1.

Definition to_int (count : Z) : Z := (count + 2 ^ 31) mod 2 ^ 32 - 2 ^ 31.

(** Modelled from the spec: what an implementation does when the bound
    bit-stream refuses a write.  The spec allows both: signal the
    stream-write failure, or return the short count of the bytes accepted
    so far. *)
Inductive Refusal : Type := Signal | ShortCount.

Section Contract.

(** Whether the sink rejects a write of [n] bits in a given state. *)
Variable refuses : OutputBitStream -> nat -> bool.

Variable on_refusal : Refusal.

Definition writeBits (s : OutputBitStream) (value : Z) (n : nat)
  : OutputBitStream * option Failure :=
  if refuses s n then (s, Some StreamWrite)
  else ((s ++ low_bits value n)%list, None).

(** Modelled from the spec: a coding scheme behind the pure virtual
    [encode].  The sources declare the interface only; no
    implementation is part of them.  A scheme keeps registers of type
    [Coder] and, for each source byte, updates them and decides which
    writes to issue (none, when it buffers). *)
Variable Coder : Type.
Variable code : Coder -> Z -> Coder * list (Z * nat).

Inductive Phase : Type := Active | Disposed.

Record Encoder : Type := {
  phase : Phase;
  coder : Coder;
  bitstream : OutputBitStream
}.

(** The writes of one symbol, in order, stopping at the first one the
    sink refuses. *)
Fixpoint emit (s : OutputBitStream) (ws : list (Z * nat))
  : OutputBitStream * option Failure :=
  match ws with
  | [] => (s, None)
  | (value, n) :: ws' =>
      match writeBits s value n with
      | (s', None) => emit s' ws'
      | (s', Some f) => (s', Some f)
      end
  end.

(** The bytes [block[blkptr .. blkptr+len)], one after the other;
    [count] is the number of source bytes accepted so far.  A refused
    write ends the call, with the failure or with the short count. *)
Fixpoint encode_bytes (c : Coder) (s : OutputBitStream) (src : list Z)
         (count : Z) : Coder * OutputBitStream * (Failure + Z) :=
  match src with
  | [] => (c, s, inr count)
  | b :: src' =>
      let (c', ws) := code c b in
      match emit s ws with
      | (s', None) => encode_bytes c' s' src' (count + 1)
      | (s', Some f) =>
          (c', s', match on_refusal with
                   | Signal => inl f
                   | ShortCount => inr count
                   end)
      end
  end.

(** Modelled from the spec: [encode(block, blkptr, len)].  A call that
    breaks a precondition signals an invalid-argument failure and
    touches nothing; otherwise the result is the count of source bytes
    accepted, as the [int] the function returns, or the stream-write
    failure. *)
Definition encode (e : Encoder) (block : list Z) (blkptr len : Z)
  : Encoder * (Failure + Z) :=
  match phase e with
  | Disposed => (e, inl InvalidArgument)
  | Active =>
      if (0 <=? blkptr) && (0 <=? len)
         && (blkptr + len <=? Z.of_nat (List.length block)) then
        match encode_bytes (coder e) (bitstream e)
                           (List.firstn (Z.to_nat len)
                                        (List.skipn (Z.to_nat blkptr) block))
                           0 with
        | (c, s, inr count) =>
            ({| phase := Active; coder := c; bitstream := s |},
             inr (to_int count))
        | (c, s, inl f) =>
            ({| phase := Active; coder := c; bitstream := s |}, inl f)
        end
      else (e, inl InvalidArgument)
  end.

End Contract.

Arguments phase {Coder} _.
Arguments coder {Coder} _.
Arguments bitstream {Coder} _.

(** A scheme that copies every byte as eight bits, a sink that takes
    everything and one that takes nothing. *)
Definition raw_code (c : unit) (b : Z) : unit * list (Z * nat) :=
  (c, [(b, 8%nat)]).

Definition never_refuses (s : OutputBitStream) (n : nat) : bool := false.

Definition always_refuses (s : OutputBitStream) (n : nat) : bool := true.

End EntropyEncoder.

(* ================================================================== *)
(** ** Worked file systems *)

Module Examples.

Definition lookup {A : Type} (tbl : list (string * A)) (p : string) : option A :=
  match List.find (fun kv => String.eqb (fst kv) p) tbl with
  | Some kv => Some (snd kv)
  | None => None
  end.

Definition reg : Z := Z.lor S_IFREG 0x1A4.
Definition dir : Z := Z.lor S_IFDIR 0x1ED.

(** A directory [src] holding [a.txt], [b.txt] and a subdirectory [sub]
    with [c.txt]; every directory also lists [.] and [..]. *)
Definition src_tree : FileSystem := {|
  fs_stat := lookup
    [ ("src", dir); ("src/.", dir); ("src/..", dir);
      ("src/a.txt", reg); ("src/b.txt", reg);
      ("src/sub", dir); ("src/sub/.", dir); ("src/sub/..", dir);
      ("src/sub/c.txt", reg) ];
  fs_opendir := lookup
    [ ("src/", [ "."; ".."; "a.txt"; "b.txt"; "sub" ]);
      ("src/sub/", [ "."; ".."; "c.txt" ]) ]
|}.

(** A working directory with a regular file [a.txt], reachable as
    [./a.txt], and a directory [d] with a regular file [.profile]. *)
Definition dot_tree : FileSystem := {|
  fs_stat := lookup
    [ (".", dir); ("a.txt", reg); ("./a.txt", reg);
      ("d", dir); ("d/.profile", reg) ];
  fs_opendir := lookup
    [ ("./", [ "."; ".."; "a.txt"; "d" ]);
      ("d/", [ "."; ".."; ".profile" ]) ]
|}.

(** A directory [d] whose hidden entry [.lock] cannot be stat-ed (a
    dangling link), listed after [a.txt] and before [z.txt]. *)
Definition broken_tree : FileSystem := {|
  fs_stat := lookup
    [ ("d", dir); ("d/.", dir); ("d/..", dir);
      ("d/a.txt", reg); ("d/z.txt", reg) ];
  fs_opendir := lookup
    [ ("d/", [ "."; ".."; "a.txt"; ".lock"; "z.txt" ]) ]
|}.

(** A file system in which only the directory [a] exists. *)
Definition a_tree : FileSystem := {|
  fs_stat := lookup [ ("a", dir); ("a/", dir); ("a/.", dir); ("a/..", dir) ];
  fs_opendir := lookup [ ("a/", [ "."; ".." ]) ]
|}.

(** A character device [con], and an object [s] whose mode carries both
    the S_IFREG and the S_IFDIR bit. *)
Definition chr : Z := Z.lor S_IFCHR 0x1B6.
Definition both : Z := Z.lor 0xC000 0x1ED.

Definition odd_tree : FileSystem := {|
  fs_stat := lookup [ ("con", chr); ("s", both); ("d", dir); ("d/con", chr) ];
  fs_opendir := lookup [ ("s/", [ "x" ]); ("d/", [ "con" ]) ]
|}.

(** A directory [top] with [a.txt], a subdirectory [locked] that cannot
    be opened, and [z.txt]. *)
Definition locked_tree : FileSystem := {|
  fs_stat := lookup
    [ ("top", dir); ("top/a.txt", reg); ("top/locked", dir);
      ("top/z.txt", reg) ];
  fs_opendir := lookup [ ("top/", [ "a.txt"; "locked"; "z.txt" ]) ]
|}.

(** A directory [e] with a socket [s] and a regular file [z.txt]. *)
Definition sock : Z := Z.lor 0xC000 0x1ED.

Definition sock_tree : FileSystem := {|
  fs_stat := lookup
    [ ("e", dir); ("e/.", dir); ("e/..", dir); ("e/s", sock);
      ("e/z.txt", reg) ];
  fs_opendir := lookup [ ("e/", [ "."; ".."; "s"; "z.txt" ]) ]
|}.

End Examples.


(* ================================================================== *)
(** * Facts about strings *)

Module StrFacts.

Lemma length_app (p q : string) :
  String.length (p ++ q) = (String.length p + String.length q)%nat.
Proof. induction p as [|c p IH]; simpl; [reflexivity | now rewrite IH]. Qed.

Lemma app_nil_r (p : string) : p ++ "" = p.
Proof. induction p as [|c p IH]; simpl; [reflexivity | now rewrite IH]. Qed.

Lemma app_assoc (p q r : string) : (p ++ q) ++ r = p ++ (q ++ r).
Proof. induction p as [|c p IH]; simpl; [reflexivity | now rewrite IH]. Qed.

Lemma get_app_at (p : string) (c : ascii) (q : string) :
  String.get (String.length p) (p ++ String c q) = Some c.
Proof. induction p as [|c' p IH]; simpl; [reflexivity | exact IH]. Qed.

Lemma get_app_l (p q : string) (n : nat) :
  (n < String.length p)%nat -> String.get n (p ++ q) = String.get n p.
Proof.
  revert n; induction p as [|c p IH]; simpl; intros n Hn; [lia|].
  destruct n as [|n]; [reflexivity | apply IH; lia].
Qed.

Lemma substring_prefix (p q : string) :
  String.substring 0 (String.length p) (p ++ q) = p.
Proof.
  induction p as [|c p IH]; simpl.
  - destruct q; reflexivity.
  - now rewrite IH.
Qed.

Lemma substring_all (p : string) :
  String.substring 0 (String.length p) p = p.
Proof.
  rewrite <- (app_nil_r p) at 2. apply substring_prefix.
Qed.

(** Every string is empty or ends in a last character. *)
Lemma snoc_cases (s : string) :
  s = "" \/ exists p c, s = p ++ String c "".
Proof.
  induction s as [|a s IH]; [now left | right].
  destruct IH as [-> | (p & c & ->)].
  - now exists "", a.
  - now exists (String a p), c.
Qed.

Lemma size_nonneg (s : string) : 0 <= Str.size s.
Proof. unfold Str.size; lia. Qed.

Lemma size_app (p q : string) : Str.size (p ++ q) = Str.size p + Str.size q.
Proof. unfold Str.size; rewrite length_app; lia. Qed.

Lemma size_snoc (p : string) (c : ascii) :
  Str.size (p ++ String c "") = Str.size p + 1.
Proof. rewrite size_app; unfold Str.size; simpl; lia. Qed.

Lemma size_sub_snoc (p : string) (c : ascii) :
  Str.size_sub (Str.size (p ++ String c "")) 1 = Str.size p.
Proof.
  rewrite size_snoc. unfold Str.size_sub.
  pose proof (size_nonneg p).
  destruct (Z.ltb_spec (Str.size p + 1) 1); lia.
Qed.

(** [s[s.size()-1]] on the empty string is out of bounds. *)
Lemma at_last_empty : Str.at_ "" (Str.size_sub (Str.size "") 1) = None.
Proof. reflexivity. Qed.

Lemma at_app (p : string) (c : ascii) (q : string) :
  Str.at_ (p ++ String c q) (Str.size p) = Some c.
Proof.
  unfold Str.at_. rewrite size_app.
  assert (H : (Str.size p <? Str.size p + Str.size (String c q)) = true).
  { apply Z.ltb_lt. unfold Str.size; simpl; lia. }
  rewrite H. unfold Str.size. rewrite Nat2Z.id. apply get_app_at.
Qed.

Lemma at_last (p : string) (c : ascii) :
  Str.at_ (p ++ String c "") (Str.size_sub (Str.size (p ++ String c "")) 1)
  = Some c.
Proof. rewrite size_sub_snoc. apply at_app. Qed.

(** [s[0]] is always defined: the first character, or the NUL of the
    empty string. *)
Lemma at_0 (s : string) : Str.at_ s 0 = Some (Str.first s).
Proof. destruct s; reflexivity. Qed.

Lemma substr_drop_last (p : string) (c : ascii) :
  Str.substr (p ++ String c "") 0
             (Str.size_sub (Str.size (p ++ String c "")) 1) = p.
Proof.
  rewrite size_sub_snoc. unfold Str.substr.
  rewrite size_snoc.
  replace (Z.min (Str.size p) (Str.size p + 1 - 0)) with (Str.size p) by lia.
  unfold Str.size. rewrite Nat2Z.id. simpl Z.to_nat.
  apply substring_prefix.
Qed.

Lemma substr_prefix (p q : string) :
  Str.substr (p ++ q) 0 (Str.size p) = p.
Proof.
  unfold Str.substr. rewrite size_app.
  pose proof (size_nonneg q).
  replace (Z.min (Str.size p) (Str.size p + Str.size q - 0))
    with (Str.size p) by lia.
  unfold Str.size. rewrite Nat2Z.id. simpl Z.to_nat.
  apply substring_prefix.
Qed.

Lemma snoc_inj (p q : string) (a b : ascii) :
  p ++ String a "" = q ++ String b "" -> p = q /\ a = b.
Proof.
  revert q; induction p as [|c p IH]; intros [|d q]; simpl; intros H.
  - now inversion H.
  - inversion H as [[H1 H2]]. destruct q; discriminate.
  - inversion H as [[H1 H2]]. destruct p; discriminate.
  - inversion H as [[H1 H2]]. destruct (IH _ H2) as [-> ->]. now split.
Qed.

Lemma first_app (p q : string) :
  p <> "" -> Str.first (p ++ q) = Str.first p.
Proof. destruct p; [congruence | reflexivity]. Qed.

End StrFacts.

(* ================================================================== *)
(** * Facts about the mode tests *)

Module ModeFacts.

Lemma land_IFREG (m : Z) : Z.land m S_IFREG = Z.land (Z.land m S_IFMT) S_IFREG.
Proof. now rewrite <- Z.land_assoc. Qed.

Lemma land_IFDIR (m : Z) : Z.land m S_IFDIR = Z.land (Z.land m S_IFMT) S_IFDIR.
Proof. now rewrite <- Z.land_assoc. Qed.

Lemma ISREG_has_IFREG (m : Z) : S_ISREG m = true -> has_IFREG m = true.
Proof.
  unfold S_ISREG, has_IFREG. intros H%Z.eqb_eq.
  now rewrite land_IFREG, H.
Qed.

Lemma ISDIR_has_IFDIR (m : Z) : S_ISDIR m = true -> has_IFDIR m = true.
Proof.
  unfold S_ISDIR, has_IFDIR. intros H%Z.eqb_eq.
  now rewrite land_IFDIR, H.
Qed.

Lemma ISDIR_not_IFREG (m : Z) : S_ISDIR m = true -> has_IFREG m = false.
Proof.
  unfold S_ISDIR, has_IFREG. intros H%Z.eqb_eq.
  now rewrite land_IFREG, H.
Qed.

(** On the types this library reports, testing the S_IFREG bit is the
    same as asking for a regular file. *)
Lemma crt_has_IFREG (m : Z) : crt_type m = true -> has_IFREG m = S_ISREG m.
Proof.
  unfold crt_type, has_IFREG, S_ISREG. rewrite land_IFREG.
  intros H. repeat apply orb_prop in H as [H|H];
    apply Z.eqb_eq in H; rewrite H; reflexivity.
Qed.

End ModeFacts.

(* ================================================================== *)
(** * Facts about createFileList *)

Section CreateFileListFacts.

Variable sep : ascii.
Variable fs : FileSystem.

Lemma ends_with_snoc (c : ascii) (p : string) (a : ascii) :
  ends_with c (p ++ String a "") = Ascii.eqb a c.
Proof.
  induction p as [|b p IH]; [reflexivity|].
  simpl. rewrite IH. destruct p; reflexivity.
Qed.

Lemma strip_empty : strip sep "" = None.
Proof. reflexivity. Qed.

Lemma strip_snoc (p : string) (c : ascii) :
  strip sep (p ++ String c "")
  = Some (if Ascii.eqb c sep then p else p ++ String c "").
Proof.
  unfold strip. rewrite StrFacts.at_last, StrFacts.substr_drop_last.
  now destruct (Ascii.eqb c sep).
Qed.

Lemma strip_keeps (t : string) :
  t <> "" -> ends_with sep t = false -> strip sep t = Some t.
Proof.
  intros Hne He. destruct (StrFacts.snoc_cases t) as [->|(p & c & ->)];
    [congruence|].
  rewrite ends_with_snoc in He. now rewrite strip_snoc, He.
Qed.

Lemma snoc2_cases (t : string) :
  (2 <= String.length t)%nat ->
  exists p a b, t = p ++ String a (String b "").
Proof.
  intros H. destruct (StrFacts.snoc_cases t) as [->|(q & b & ->)];
    [simpl in H; lia|].
  destruct (StrFacts.snoc_cases q) as [->|(p & a & ->)]; [simpl in H; lia|].
  exists p, a, b. now rewrite StrFacts.app_assoc.
Qed.

Lemma isRecursive_short (t : string) :
  (String.length t <= 2)%nat -> isRecursive sep t = Some true.
Proof.
  intros H. unfold isRecursive.
  destruct (Z.leb_spec (Str.size t) 2) as [_|H']; [reflexivity|].
  unfold Str.size in H'; lia.
Qed.

Lemma isRecursive_snoc2 (p : string) (a b : ascii) :
  p <> "" ->
  isRecursive sep (p ++ String a (String b ""))
  = Some (negb (Ascii.eqb b "." && Ascii.eqb a sep)).
Proof.
  intros Hp. unfold isRecursive.
  assert (Hs : Str.size (p ++ String a (String b "")) = Str.size p + 2).
  { rewrite StrFacts.size_app. unfold Str.size; simpl; lia. }
  assert (Hp' : 1 <= Str.size p).
  { destruct p; [congruence | unfold Str.size; simpl; lia]. }
  rewrite Hs.
  destruct (Z.leb_spec (Str.size p + 2) 2); [lia|].
  assert (H1 : Str.size_sub (Str.size p + 2) 1 = Str.size (p ++ String a "")).
  { rewrite StrFacts.size_snoc. unfold Str.size_sub.
    destruct (Z.ltb_spec (Str.size p + 2) 1); lia. }
  assert (H2 : Str.size_sub (Str.size p + 2) 2 = Str.size p).
  { unfold Str.size_sub. destruct (Z.ltb_spec (Str.size p + 2) 2); lia. }
  rewrite H1, H2.
  replace (p ++ String a (String b "")) with ((p ++ String a "") ++ String b "")
    at 1 by now rewrite StrFacts.app_assoc.
  rewrite StrFacts.at_app, StrFacts.at_app.
  destruct (Ascii.eqb b "."), (Ascii.eqb a sep); reflexivity.
Qed.

(** The test never indexes the string out of bounds. *)
Lemma isRecursive_total (t : string) :
  isRecursive sep t = Some true \/ isRecursive sep t = Some false.
Proof.
  destruct (Nat.le_gt_cases (String.length t) 2) as [H|H].
  - left. now apply isRecursive_short.
  - destruct (snoc2_cases t) as (p & a & b & ->); [lia|].
    assert (Hp : p <> "").
    { intros ->. simpl in H. lia. }
    rewrite (isRecursive_snoc2 _ _ _ Hp).
    destruct (negb _); auto.
Qed.

(** Non-recursive directives are the ones of the form [D<sep>.] with a
    non-empty [D]. *)
Lemma isRecursive_false_marker (t : string) :
  isRecursive sep t = Some false <->
  exists D, D <> "" /\ t = slash sep D ++ ".".
Proof.
  unfold slash. split.
  - intros H.
    destruct (Nat.le_gt_cases (String.length t) 2) as [Hl|Hl].
    + rewrite (isRecursive_short _ Hl) in H. discriminate.
    + destruct (snoc2_cases t) as (p & a & b & ->); [lia|].
      assert (Hp : p <> "").
      { intros ->. simpl in Hl. lia. }
      rewrite (isRecursive_snoc2 _ _ _ Hp) in H.
      destruct (Ascii.eqb_spec b "."), (Ascii.eqb_spec a sep);
        try discriminate.
      subst. exists p. split; [assumption|].
      now rewrite StrFacts.app_assoc.
  - intros (D & HD & ->). rewrite StrFacts.app_assoc. simpl.
    rewrite (isRecursive_snoc2 _ _ _ HD), !Ascii.eqb_refl. reflexivity.
Qed.

End CreateFileListFacts.

Section Enumeration.

Variable sep : ascii.
Variable fs : FileSystem.

Lemma normalize_recursive (t : string) :
  t <> "" ->
  normalize sep true t = Some (if ends_with sep t then t else slash sep t).
Proof.
  intros Hne. destruct (StrFacts.snoc_cases t) as [->|(p & c & ->)];
    [congruence|].
  unfold normalize. rewrite StrFacts.at_last, ends_with_snoc.
  now destruct (Ascii.eqb c sep).
Qed.

Lemma normalize_marker (D : string) :
  normalize sep false (slash sep D ++ ".") = Some (slash sep D).
Proof. unfold normalize. now rewrite StrFacts.substr_drop_last. Qed.

(** The shape of a call on a directory, once the directive has been
    stripped, classified and normalized. *)
Lemma createFileList_directory
      (fuel : nat) (target t t' : string) (files : list string)
      (m : Z) (isRec : bool) :
  strip sep target = Some t ->
  fs_stat fs t = Some m ->
  has_IFREG m = false -> has_IFDIR m = true ->
  isRecursive sep t = Some isRec ->
  normalize sep isRec t = Some t' ->
  createFileList sep fs (S fuel) target files =
  match fs_opendir fs t' with
  | Some ents =>
      let (files', o) :=
        readdirLoop fs (createFileList sep fs fuel) isRec t' ents files in
      (t', files', o)
  | None => (t', files, Raised (cannot_read t'))
  end.
Proof.
  intros Hs Hst Hr Hd Hrec Hn. cbn [createFileList].
  now rewrite Hs, Hst, Hr, Hd, Hrec, Hn.
Qed.

(** The shape of a call on a regular file: the test of line 49 looks at
    the first character of the stripped directive. *)
Lemma createFileList_regular
      (fuel : nat) (target t : string) (files : list string) (m : Z) :
  strip sep target = Some t ->
  fs_stat fs t = Some m ->
  has_IFREG m = true ->
  createFileList sep fs (S fuel) target files =
  (t, if hidden t then files else (files ++ [t])%list, Done).
Proof.
  intros Hs Hst Hr. cbn [createFileList].
  rewrite Hs, Hst, Hr, StrFacts.at_0. unfold hidden.
  now destruct (Ascii.eqb (Str.first t) ".").
Qed.

(** In non-recursive mode the loop is a filter over the entries, and the
    recursive call is never made. *)
Lemma readdirLoop_flat
      (recurse : string -> list string -> string * list string * outcome)
      (target : string) (ents : list string) :
  (forall name, In name ents -> fs_stat fs (target ++ name) <> None) ->
  forall files,
    readdirLoop fs recurse false target ents files =
    ((files ++ List.map (String.append target)
                       (List.filter (listed fs target) ents))%list, Done).
Proof.
  induction ents as [|name ents IH]; intros Hst files; simpl.
  - now rewrite List.app_nil_r.
  - unfold listed at 1, hidden.
    destruct (fs_stat fs (target ++ name)) as [m|] eqn:Hm.
    + destruct (Ascii.eqb (Str.first name) "."); simpl.
      * apply IH. intros n Hn. apply Hst. now right.
      * destruct (has_IFREG m); simpl.
        -- rewrite IH by (intros n Hn; apply Hst; now right).
           now rewrite <- List.app_assoc.
        -- apply IH. intros n Hn. apply Hst. now right.
    + exfalso. apply (Hst name); [now left | exact Hm].
Qed.

(** The loop stats an entry before it looks at its name: once the
    entries before it are done, an entry that cannot be stat-ed ends
    the loop with an open-file error, whatever its name is. *)
Lemma readdirLoop_stat_fails
      (recurse : string -> list string -> string * list string * outcome)
      (isRec : bool) (target : string) (pre : list string)
      (name : string) (post : list string) :
  fs_stat fs (target ++ name) = None ->
  forall files files1,
    readdirLoop fs recurse isRec target pre files = (files1, Done) ->
    readdirLoop fs recurse isRec target (pre ++ name :: post) files =
    (files1, Raised (cannot_access (target ++ name))).
Proof.
  intros Hname. induction pre as [|d pre IH]; intros files files1 Hpre;
    simpl in *.
  - inversion Hpre; subst. now rewrite Hname.
  - destruct (fs_stat fs (target ++ d)) as [m|]; [|discriminate].
    destruct (negb (Ascii.eqb (Str.first d) ".")); [|now apply IH].
    destruct (has_IFREG m); [now apply IH|].
    destruct (isRec && has_IFDIR m); [|now apply IH].
    destruct (recurse (target ++ d) files) as [[t1 f1] o1].
    destruct o1; try discriminate. now apply IH.
Qed.

(** The accumulator only grows. *)
Lemma readdirLoop_appends
      (recurse : string -> list string -> string * list string * outcome)
      (isRec : bool) (target : string) (ents : list string) :
  (forall p files, exists added,
        snd (fst (recurse p files)) = (files ++ added)%list) ->
  forall files, exists added,
    fst (readdirLoop fs recurse isRec target ents files)
    = (files ++ added)%list.
Proof.
  intros Hrec. induction ents as [|d ents IH]; intros files; simpl.
  - exists []. now rewrite List.app_nil_r.
  - destruct (fs_stat fs (target ++ d)) as [m|];
      [|exists []; now rewrite List.app_nil_r].
    destruct (negb (Ascii.eqb (Str.first d) ".")); [|apply IH].
    destruct (has_IFREG m).
    { destruct (IH (files ++ [(target ++ d)%string])%list) as [added Ha].
      exists ((target ++ d)%string :: added).
      now rewrite Ha, <- List.app_assoc. }
    destruct (isRec && has_IFDIR m); [|apply IH].
    destruct (Hrec (target ++ d) files) as [a1 Ha1].
    destruct (recurse (target ++ d) files) as [[t1 f1] o1].
    simpl in Ha1. subst f1.
    destruct o1; try (exists a1; reflexivity).
    destruct (IH (files ++ a1)%list) as [a2 Ha2].
    exists (a1 ++ a2)%list. now rewrite Ha2, List.app_assoc.
Qed.

Lemma createFileList_appends (fuel : nat) :
  forall target files, exists added,
    snd (fst (createFileList sep fs fuel target files))
    = (files ++ added)%list.
Proof.
  induction fuel as [|fuel IH]; intros target files.
  - exists []. simpl. now rewrite List.app_nil_r.
  - assert (Hnil : files = (files ++ [])%list) by now rewrite List.app_nil_r.
    cbn [createFileList].
    destruct (strip sep target) as [t|]; [|now exists []].
    destruct (fs_stat fs t) as [m|]; [|now exists []].
    destruct (has_IFREG m).
    { destruct (Str.at_ t 0) as [c|]; [|now exists []].
      destruct (negb (Ascii.eqb c ".")); [now exists [t] | now exists []]. }
    destruct (negb (has_IFDIR m)); [now exists []|].
    destruct (isRecursive sep t) as [isRec|]; [|now exists []].
    destruct (normalize sep isRec t) as [t'|]; [|now exists []].
    destruct (fs_opendir fs t') as [ents|]; [|now exists []].
    destruct (readdirLoop_appends (createFileList sep fs fuel) isRec t'
                                  ents IH files) as [added Ha].
    destruct (readdirLoop _ _ _ _ _ _) as [f o]. simpl in *.
    now exists added.
Qed.

End Enumeration.

Section Safety.

Variable sep : ascii.
Variable fs : FileSystem.

(** [stat] of the empty path fails (ENOENT). *)
Hypothesis stat_empty : fs_stat fs "" = None.

Lemma slash_nonempty (d : string) : slash sep d <> "".
Proof. unfold slash. destruct d; discriminate. Qed.

Lemma app_nonempty_l (p q : string) : p <> "" -> p ++ q <> "".
Proof. destruct p; [congruence | discriminate]. Qed.

Lemma readdirLoop_defined
      (recurse : string -> list string -> string * list string * outcome)
      (isRec : bool) (target : string) (ents : list string) :
  (forall p files, p <> "" -> snd (recurse p files) <> Undefined) ->
  target <> "" ->
  forall files,
    snd (readdirLoop fs recurse isRec target ents files) <> Undefined.
Proof.
  intros Hrec Ht. induction ents as [|d ents IH]; intros files; simpl.
  - discriminate.
  - destruct (fs_stat fs (target ++ d)) as [m|]; [|discriminate].
    destruct (negb (Ascii.eqb (Str.first d) ".")); [|apply IH].
    destruct (has_IFREG m); [apply IH|].
    destruct (isRec && has_IFDIR m); [|apply IH].
    pose proof (Hrec (target ++ d) files (app_nonempty_l _ d Ht)) as Hd.
    destruct (recurse (target ++ d) files) as [[t1 f1] o1].
    simpl in Hd. destruct o1; try apply IH; simpl; congruence.
Qed.

(** On a non-empty directive no string is ever indexed out of bounds,
    at any depth of the recursion. *)
Lemma createFileList_defined (fuel : nat) :
  forall target files,
    target <> "" ->
    snd (createFileList sep fs fuel target files) <> Undefined.
Proof.
  induction fuel as [|fuel IH]; intros target files Hne; [discriminate|].
  cbn [createFileList].
  destruct (StrFacts.snoc_cases target) as [->|(p & c & ->)]; [congruence|].
  rewrite strip_snoc.
  set (t := if Ascii.eqb c sep then p else p ++ String c "").
  destruct (fs_stat fs t) as [m|] eqn:Hst; [|discriminate].
  assert (Ht : t <> "") by (intros E; rewrite E in Hst; congruence).
  destruct (has_IFREG m).
  { rewrite StrFacts.at_0.
    destruct (negb (Ascii.eqb (Str.first t) ".")); discriminate. }
  destruct (negb (has_IFDIR m)); [discriminate|].
  assert (Hn : exists isRec t', isRecursive sep t = Some isRec /\
                                normalize sep isRec t = Some t' /\ t' <> "").
  { destruct (isRecursive_total sep t) as [H|H].
    - exists true. eexists. split; [exact H|].
      split; [now apply normalize_recursive|].
      destruct (ends_with sep t); [exact Ht | apply slash_nonempty].
    - pose proof H as H'.
      apply isRecursive_false_marker in H' as (D & HD & E).
      exists false, (slash sep D). split; [exact H|].
      split; [rewrite E; apply normalize_marker | apply slash_nonempty]. }
  destruct Hn as (isRec & t' & -> & -> & Ht').
  destruct (fs_opendir fs t') as [ents|]; [|discriminate].
  pose proof (readdirLoop_defined (createFileList sep fs fuel) isRec t'
                                  ents IH Ht' files) as Hl.
  destruct (readdirLoop _ _ _ _ _ _) as [f o]. exact Hl.
Qed.

End Safety.

(* ================================================================== *)
(** * Facts about mkdirAll *)

Section MkdirAllFacts.

Variable sep : ascii.
Variable World : Type.
Variable sys_mkdir : World -> string -> World * option Z.

Lemma run_app (ds1 ds2 : list string) :
  forall p,
    run sys_mkdir p (ds1 ++ ds2) =
    match run sys_mkdir p ds1 with
    | (p', None) => run sys_mkdir p' ds2
    | (p', Some r) => (p', Some r)
    end.
Proof.
  induction ds1 as [|d ds1 IH]; intros p; simpl; [reflexivity|].
  destruct (_mkdir sys_mkdir p d) as [p' r].
  destruct (negb (r =? 0) && negb (errno p' =? EEXIST)); [reflexivity|].
  apply IH.
Qed.

Lemma substr_index (path : string) (i : nat) :
  (i <= String.length path)%nat ->
  Str.substr path 0 (Z.of_nat i) = String.substring 0 i path.
Proof.
  intros H. unfold Str.substr, Str.size.
  replace (Z.min (Z.of_nat i) (Z.of_nat (String.length path) - 0))
    with (Z.of_nat i) by lia.
  now rewrite Nat2Z.id.
Qed.

(** The loop of lines 112-121 makes the calls of [prefixes_from], as long
    as the counter does not wrap. *)
Lemma mkdirAll_for_run (path : string) :
  Str.size path < 2 ^ UINT_WIDTH ->
  forall rest pre fuel p,
    path = pre ++ rest ->
    (String.length rest <= fuel)%nat ->
    mkdirAll_for sep sys_mkdir fuel path (Str.size pre) p =
    run sys_mkdir p (prefixes_from sep path (String.length pre) rest).
Proof.
  intros Hsz. induction rest as [|c rest IH]; intros pre fuel p Hp Hf.
  - simpl. rewrite StrFacts.app_nil_r in Hp. subst pre.
    destruct fuel; simpl; [reflexivity|].
    now rewrite Z.ltb_irrefl.
  - destruct fuel as [|fuel]; [simpl in Hf; lia|].
    cbn [mkdirAll_for prefixes_from].
    assert (Hlt : Str.size pre < Str.size path).
    { rewrite Hp, StrFacts.size_app. unfold Str.size; simpl; lia. }
    destruct (Z.ltb_spec (Str.size pre) (Str.size path)); [|lia].
    rewrite Hp at 1. rewrite StrFacts.at_app.
    assert (Hnext : (Str.size pre + 1) mod 2 ^ UINT_WIDTH
                    = Str.size (pre ++ String c "")).
    { rewrite StrFacts.size_snoc. apply Z.mod_small.
      pose proof (StrFacts.size_nonneg pre). lia. }
    assert (Hlen : S (String.length pre) = String.length (pre ++ String c "")).
    { rewrite StrFacts.length_app. simpl. lia. }
    assert (Hp' : path = (pre ++ String c "") ++ rest).
    { now rewrite StrFacts.app_assoc. }
    rewrite Hnext, Hlen.
    destruct (Ascii.eqb c sep).
    + unfold Str.size at 1. rewrite substr_index.
      2:{ rewrite Hp, StrFacts.length_app. lia. }
      cbn [run].
      destruct (_mkdir sys_mkdir p _) as [p' r].
      destruct (negb (r =? 0) && negb (errno p' =? EEXIST)); [reflexivity|].
      apply IH; [exact Hp' | simpl in Hf; lia].
    + apply IH; [exact Hp' | simpl in Hf; lia].
Qed.

Lemma mkdirAll_run (p : Process World) (path : string) :
  Str.size path < 2 ^ UINT_WIDTH ->
  mkdirAll sep sys_mkdir p path =
  match run sys_mkdir (set_errno p 0) (attempts sep path) with
  | (p', Some r) => (p', r)
  | (p', None) => (p', 0)
  end.
Proof.
  intros Hsz. unfold mkdirAll, attempts. rewrite run_app.
  pose proof (mkdirAll_for_run path Hsz path "" (String.length path)
                               (set_errno p 0) eq_refl (le_n _)) as H.
  change (Str.size "") with 0 in H. simpl String.length in H.
  rewrite H.
  destruct (run sys_mkdir (set_errno p 0) (prefixes_from sep path 0 path)) as [p1 [r|]];
    [reflexivity|].
  simpl. destruct (_mkdir sys_mkdir p1 path) as [p' r].
  now destruct (negb (r =? 0) && negb (errno p' =? EEXIST)).
Qed.

End MkdirAllFacts.

Section MkdirAllCalls.

Variable sep : ascii.
Variable World : Type.
Variable sys_mkdir : World -> string -> World * option Z.

Lemma run_step (p : Process World) (d : string) (ds : list string) :
  run sys_mkdir p (d :: ds) =
  match sys_mkdir (world p) d with
  | (w, None) => run sys_mkdir {| world := w; errno := errno p |} ds
  | (w, Some e) =>
      if e =? EEXIST
      then run sys_mkdir {| world := w; errno := e |} ds
      else ({| world := w; errno := e |}, Some (-1))
  end.
Proof.
  simpl. unfold _mkdir.
  destruct (sys_mkdir (world p) d) as [w [e|]]; simpl; [|reflexivity].
  now destruct (e =? EEXIST).
Qed.

Lemma run_none_benign (ds : list string) :
  forall p p',
    run sys_mkdir p ds = (p', None) ->
    benign sys_mkdir (world p) ds (world p').
Proof.
  induction ds as [|d ds IH]; intros p p' H.
  - inversion H; subst. constructor.
  - rewrite run_step in H.
    destruct (sys_mkdir (world p) d) as [w [e|]] eqn:Hd.
    + destruct (Z.eqb_spec e EEXIST) as [->|]; [|discriminate].
      eapply benign_exists; [exact Hd|]. apply (IH _ _ H).
    + eapply benign_ok; [exact Hd|]. apply (IH _ _ H).
Qed.

Lemma run_some_fails (ds : list string) :
  forall p p' r,
    run sys_mkdir p ds = (p', Some r) ->
    r = -1 /\
    exists done d rest w1,
      ds = (done ++ d :: rest)%list /\
      benign sys_mkdir (world p) done w1 /\
      fails_hard sys_mkdir w1 d.
Proof.
  induction ds as [|d ds IH]; intros p p' r H; [discriminate|].
  rewrite run_step in H.
  destruct (sys_mkdir (world p) d) as [w [e|]] eqn:Hd.
  - destruct (Z.eqb_spec e EEXIST) as [->|Hne].
    + destruct (IH _ _ _ H) as (Hr & done & d' & rest & w1 & -> & Hb & Hf).
      split; [exact Hr|]. exists (d :: done), d', rest, w1.
      split; [reflexivity|]. split; [|exact Hf].
      eapply benign_exists; [exact Hd | exact Hb].
    + inversion H; subst. split; [reflexivity|].
      exists [], d, ds, (world p). split; [reflexivity|].
      split; [constructor|]. now exists w, e.
  - destruct (IH _ _ _ H) as (Hr & done & d' & rest & w1 & -> & Hb & Hf).
    split; [exact Hr|]. exists (d :: done), d', rest, w1.
    split; [reflexivity|]. split; [|exact Hf].
    eapply benign_ok; [exact Hd | exact Hb].
Qed.

Lemma benign_run (w : World) (done : list string) (w1 : World) :
  benign sys_mkdir w done w1 ->
  forall p, world p = w ->
    exists p1, world p1 = w1 /\
      forall l, run sys_mkdir p (done ++ l) = run sys_mkdir p1 l.
Proof.
  induction 1 as [w | w d w' ds w'' Hd Hb IH | w d w' ds w'' Hd Hb IH];
    intros p Hp.
  - now exists p.
  - destruct (IH {| world := w'; errno := errno p |} eq_refl) as (p1 & H1 & Hl).
    exists p1. split; [exact H1|]. intros l.
    rewrite <- List.app_comm_cons, run_step, Hp, Hd. apply Hl.
  - destruct (IH {| world := w'; errno := EEXIST |} eq_refl) as (p1 & H1 & Hl).
    exists p1. split; [exact H1|]. intros l.
    rewrite <- List.app_comm_cons, run_step, Hp, Hd. simpl. apply Hl.
Qed.

Lemma fails_hard_run (p : Process World) (d : string) (rest : list string) :
  fails_hard sys_mkdir (world p) d ->
  exists p', run sys_mkdir p (d :: rest) = (p', Some (-1)).
Proof.
  intros (w' & e & Hd & Hne). rewrite run_step, Hd.
  destruct (Z.eqb_spec e EEXIST); [contradiction|]. eauto.
Qed.

(** The prefixes the loop creates are the parts of the path that come
    before a separator. *)
Lemma In_prefixes_from (path : string) :
  forall rest pre d,
    path = pre ++ rest ->
    (In d (prefixes_from sep path (String.length pre) rest) <->
     exists q r, rest = q ++ String sep r /\ d = pre ++ q).
Proof.
  induction rest as [|c rest IH]; intros pre d Hp.
  - simpl. split; [contradiction|].
    intros (q & r & H & _). destruct q; discriminate.
  - assert (Hp' : path = (pre ++ String c "") ++ rest)
      by now rewrite StrFacts.app_assoc.
    assert (Hlen : S (String.length pre) = String.length (pre ++ String c "")).
    { rewrite StrFacts.length_app. simpl. lia. }
    pose proof (IH (pre ++ String c "") d Hp') as IH'.
    rewrite <- Hlen in IH'.
    cbn [prefixes_from].
    assert (Hshift :
              (exists q r, rest = q ++ String sep r /\
                           d = (pre ++ String c "") ++ q) <->
              (exists q r, String c rest = String c q ++ String sep r /\
                           d = pre ++ String c q)).
    { split; intros (q & r & H1 & H2); exists q, r.
      - split; [simpl; now rewrite H1 | now rewrite H2, StrFacts.app_assoc].
      - split; [simpl in H1; now inversion H1
               | now rewrite H2, StrFacts.app_assoc]. }
    destruct (Ascii.eqb_spec c sep) as [->|Hne].
    + simpl In. rewrite IH', Hshift. 
      rewrite Hp at 1. rewrite StrFacts.substring_prefix.
      split.
      * intros [<-|(q & r & H1 & H2)].
        -- exists "", rest. now rewrite StrFacts.app_nil_r.
        -- exists (String sep q), r. now split.
      * intros (q & r & H1 & H2). destruct q as [|c' q].
        -- left. now rewrite H2, StrFacts.app_nil_r.
        -- right. simpl in H1. inversion H1; subst. now exists q, r.
    + rewrite IH', Hshift. split.
      * intros (q & r & H1 & H2). exists (String c q), r. now split.
      * intros (q & r & H1 & H2). destruct q as [|c' q].
        -- simpl in H1. inversion H1. congruence.
        -- simpl in H1. inversion H1; subst. now exists q, r.
Qed.

Lemma In_attempts (path d : string) :
  In d (attempts sep path) <->
  d = path \/ exists r, path = d ++ String sep r.
Proof.
  unfold attempts. rewrite List.in_app_iff.
  rewrite (In_prefixes_from path path "" d eq_refl). simpl.
  split.
  - intros [(q & r & H1 & H2)|[H|[]]]; [right | now left].
    exists r. now rewrite H2.
  - intros [H|(r & H)]; [now right; left|]. left. now exists d, r.
Qed.

End MkdirAllCalls.

(* ================================================================== *)
(** * Facts about the encoder contract *)

Section EncoderFacts.

Import EntropyEncoder.

Variable refuses : OutputBitStream -> nat -> bool.
Variable on_refusal : Refusal.
Variable Coder : Type.
Variable code : Coder -> Z -> Coder * list (Z * nat).

Lemma writeBits_written (s : OutputBitStream) (value : Z) (n : nat) :
  (written s <= written (fst (writeBits refuses s value n)))%nat.
Proof.
  unfold writeBits, written. destruct (refuses s n); simpl; [lia|].
  rewrite List.length_app. lia.
Qed.

Lemma emit_written (ws : list (Z * nat)) :
  forall s, (written s <= written (fst (emit refuses s ws)))%nat.
Proof.
  induction ws as [|[value n] ws IH]; intros s; simpl; [lia|].
  pose proof (writeBits_written s value n) as Hw.
  destruct (writeBits refuses s value n) as [s' [f|]]; simpl in *;
    [exact Hw|].
  specialize (IH s'). lia.
Qed.

(** A run of writes ends without a failure, or with the stream-write
    failure at a write the sink refused. *)
Lemma emit_outcome (ws : list (Z * nat)) :
  forall s,
    snd (emit refuses s ws) = None \/
    (snd (emit refuses s ws) = Some StreamWrite /\
     exists s' n, refuses s' n = true).
Proof.
  induction ws as [|[value n] ws IH]; intros s; simpl; [now left|].
  unfold writeBits. destruct (refuses s n) eqn:Hr; simpl.
  - right. split; [reflexivity|]. now exists s, n.
  - apply IH.
Qed.

Lemma encode_bytes_spec (src : list Z) :
  forall c s count,
    let r := encode_bytes refuses on_refusal Coder code c s src count in
    (written s <= written (snd (fst r)))%nat /\
    (snd r = inr (count + Z.of_nat (List.length src)) \/
     ((exists s' n, refuses s' n = true) /\
      match on_refusal with
      | Signal => snd r = inl StreamWrite
      | ShortCount =>
          exists k, snd r = inr k /\
                    count <= k < count + Z.of_nat (List.length src)
      end)).
Proof.
  induction src as [|b src IH]; intros c s count; cbv zeta.
  - simpl. split; [lia|]. left. f_equal. lia.
  - cbn [encode_bytes List.length].
    destruct (code c b) as [c' ws].
    pose proof (emit_written ws s) as Hw.
    destruct (emit_outcome ws s) as [Ho|[Ho Hex]].
    + destruct (emit refuses s ws) as [s' o]. simpl in Ho, Hw. subst o.
      destruct (IH c' s' (count + 1)) as [H1 H2]. cbv zeta in H1, H2.
      split; [lia|].
      destruct H2 as [H2|[Hex H2]].
      * left. rewrite H2. f_equal. lia.
      * right. split; [exact Hex|].
        destruct on_refusal; [exact H2|].
        destruct H2 as (k & Hk & Hr). exists k. split; [exact Hk | lia].
    + destruct (emit refuses s ws) as [s' o]. simpl in Ho, Hw. subst o.
      simpl. split; [exact Hw|]. right. split; [exact Hex|].
      destruct on_refusal; [reflexivity|].
      exists count. split; [reflexivity | lia].
Qed.

Lemma to_int_small (z : Z) : 0 <= z <= INT_MAX -> to_int z = z.
Proof.
  unfold to_int, INT_MAX. intros H.
  rewrite Z.mod_small by lia. lia.
Qed.

End EncoderFacts.

(* ================================================================== *)
(** * The path enumerator *)

(** C1.  The specification has a target that [stat] reports as a regular
    file appended exactly when its basename does not begin with a dot.
    The code tests the first character of the whole directive instead
    (line 49), while the loop over directory entries tests the entry name
    (line 88).
    On a working directory holding the regular file [a.txt] and a directory
    [d] holding the regular file [.profile]: the directive [./a.txt], whose
    basename [a.txt] is not hidden, is dropped, and the directive
    [d/.profile], whose basename is hidden, is appended.  Both calls return
    without opening a directory. *)
Theorem createFileList_regular_tests_first_character :
  (fs_stat Examples.dot_tree "./a.txt" = Some Examples.reg /\
   S_ISREG Examples.reg = true /\
   hidden (basename "/" "./a.txt") = false /\
   createFileList "/" Examples.dot_tree 1 "./a.txt" []
   = ("./a.txt", [], Done)) /\
  (fs_stat Examples.dot_tree "d/.profile" = Some Examples.reg /\
   hidden (basename "/" "d/.profile") = true /\
   createFileList "/" Examples.dot_tree 1 "d/.profile" []
   = ("d/.profile", ["d/.profile"], Done)).
Proof. vm_compute. repeat split. Qed.


(** C6.  The specification has the enumerator well defined on an empty
    directive.  The first statement of the function reads
    [target[target.size()-1]]; on the empty string the index wraps to
    2^64-1 and the read is out of bounds, whatever the file system
    holds. *)
Theorem createFileList_empty_target_out_of_bounds :
  forall (sep : ascii) (fs : FileSystem) (fuel : nat) (files : list string),
    createFileList sep fs (S fuel) "" files = ("", files, Undefined).
Proof. reflexivity. Qed.

(** The other two directives of C6 are handled: a directive that is only
    the separator is stripped to the empty path, which [stat] rejects, and
    any other non-empty directive, with any number of trailing separators,
    never leads to an out-of-bounds read. *)
Lemma createFileList_separator_only
      (sep : ascii) (fs : FileSystem) (fuel : nat) (files : list string) :
  fs_stat fs "" = None ->
  createFileList sep fs (S fuel) (String sep "") files
  = ("", files, Raised (cannot_access "")).
Proof.
  intros H. cbn [createFileList].
  change (String sep "") with ("" ++ String sep "").
  rewrite strip_snoc, Ascii.eqb_refl, H. reflexivity.
Qed.

Lemma createFileList_trailing_separators
      (sep : ascii) (fs : FileSystem) (fuel : nat)
      (p : string) (files : list string) :
  fs_stat fs "" = None ->
  strip sep (slash sep (slash sep p)) = Some (slash sep p) /\
  snd (createFileList sep fs fuel (slash sep (slash sep p)) files)
  <> Undefined.
Proof.
  intros H. split.
  - unfold slash at 1. now rewrite strip_snoc, Ascii.eqb_refl.
  - apply createFileList_defined; [exact H | apply slash_nonempty].
Qed.


(** Where every entry has one of the file types regular, directory,
    character device and pipe, the bit test is the regular-file test:
    the call on [D<sep>.] then appends exactly the entries of [D] that
    are not hidden and are regular files, each as [D<sep>name], in the
    order [readdir] lists them, and returns.  It holds with a recursion
    budget of one call, so no subdirectory is entered. *)
Lemma createFileList_non_recursive_marker :
  forall (sep : ascii) (fs : FileSystem) (D : string) (ents files : list string)
         (fuel : nat) (m : Z),
    sep <> "."%char ->
    D <> "" ->
    fs_stat fs (slash sep D ++ ".") = Some m ->
    S_ISDIR m = true ->
    fs_opendir fs (slash sep D) = Some ents ->
    (forall name, In name ents ->
                  exists m', fs_stat fs (slash sep D ++ name) = Some m' /\
                             crt_type m' = true) ->
    createFileList sep fs (S fuel) (slash sep D ++ ".") files =
    (slash sep D,
     (files ++
      List.map (String.append (slash sep D))
        (List.filter
           (fun name => negb (hidden name) &&
                        is_regular fs (slash sep D ++ name))
           ents))%list,
     Done).
Proof.
  intros sep fs D ents files fuel m Hsep HD Hst Hdir Hopen Hents.
  assert (Hstrip : strip sep (slash sep D ++ ".") = Some (slash sep D ++ ".")).
  { rewrite strip_snoc. destruct (Ascii.eqb_spec "."%char sep); congruence. }
  assert (Hrec : isRecursive sep (slash sep D ++ ".") = Some false).
  { apply isRecursive_false_marker. now exists D. }
  rewrite (createFileList_directory sep fs fuel _ _ (slash sep D) files m false
             Hstrip Hst (ModeFacts.ISDIR_not_IFREG _ Hdir)
             (ModeFacts.ISDIR_has_IFDIR _ Hdir) Hrec (normalize_marker sep D)).
  rewrite Hopen, readdirLoop_flat.
  - f_equal. f_equal. f_equal. f_equal. apply List.filter_ext_in.
    intros name Hin. unfold listed, is_regular.
    destruct (Hents name Hin) as (m' & -> & Hm').
    now rewrite (ModeFacts.crt_has_IFREG _ Hm').
  - intros name Hin. destruct (Hents name Hin) as (m' & -> & _). discriminate.
Qed.

(** The directory [src] with [a.txt], [b.txt] and [sub/c.txt]:
    [createFileList("src/.")] yields [src/a.txt] and [src/b.txt]. *)
Lemma createFileList_non_recursive_marker_witness :
  S_ISDIR Examples.dir = true /\
  createFileList "/" Examples.src_tree 1 "src/." []
  = ("src/", ["src/a.txt"; "src/b.txt"], Done).
Proof.
  split; [reflexivity|].
  refine (createFileList_non_recursive_marker
            "/" Examples.src_tree "src" [ "."; ".."; "a.txt"; "b.txt"; "sub" ]
            [] 0 Examples.dir _ _ eq_refl eq_refl eq_refl _).
  - discriminate.
  - discriminate.
  - intros name Hin. simpl in Hin.
    destruct Hin as [<-|[<-|[<-|[<-|[<-|[]]]]]];
      eexists; (split; [reflexivity | reflexivity]).
Defined.

(** The same tree given as [src] is walked recursively, two calls deep. *)
Example createFileList_recursive_src :
  createFileList "/" Examples.src_tree 2 "src" []
  = ("src/", ["src/a.txt"; "src/b.txt"; "src/sub/c.txt"], Done).
Proof. reflexivity. Qed.

Lemma snoc_neq (s : string) (c : ascii) : s ++ String c "" <> s.
Proof.
  intros H. apply (f_equal String.length) in H.
  rewrite StrFacts.length_app in H. simpl in H. lia.
Qed.

Lemma createFileList_directory_target
      (sep : ascii) (fs : FileSystem) (fuel : nat) (target t t' : string)
      (files : list string) (m : Z) (isRec : bool) :
  strip sep target = Some t ->
  fs_stat fs t = Some m ->
  S_ISDIR m = true ->
  isRecursive sep t = Some isRec ->
  normalize sep isRec t = Some t' ->
  fst (fst (createFileList sep fs (S fuel) target files)) = t'.
Proof.
  intros Hs Hst Hdir Hrec Hn.
  rewrite (createFileList_directory sep fs fuel _ _ _ files m isRec
             Hs Hst (ModeFacts.ISDIR_not_IFREG _ Hdir)
             (ModeFacts.ISDIR_has_IFDIR _ Hdir) Hrec Hn).
  destruct (fs_opendir fs t') as [ents|]; [|reflexivity].
  now destruct (readdirLoop _ _ _ _ _ _).
Qed.

(** C8, as stated, fails: the directory [a] given as [a/] is stripped to
    [a], found recursive, and gets its separator back, so the caller's
    string after the call is the one passed in. *)
Lemma createFileList_directive_with_separator_preserved :
  strip "/" "a/" = Some "a" /\
  fs_stat Examples.a_tree "a" = Some Examples.dir /\
  S_ISDIR Examples.dir = true /\
  createFileList "/" Examples.a_tree 1 "a/" [] = ("a/", [], Done) /\
  ~ fst (fst (createFileList "/" Examples.a_tree 1 "a/" [])) <> "a/".
Proof.
  repeat split. intros H. apply H. reflexivity.
Qed.

(** C8, amended.  The call writes to the caller's [target]: after a call on
    a directory, whichever way the call ends, the string is the stripped
    directive with the separator appended in recursive mode (unless it ends
    in one already), or with the trailing dot removed in non-recursive
    mode.  A directive that did not end with the separator is therefore
    changed; one that did may come back as it was. *)
Theorem createFileList_rewrites_directive :
  forall (sep : ascii) (fs : FileSystem) (fuel : nat) (target t : string)
         (files : list string) (m : Z),
    strip sep target = Some t ->
    t <> "" ->
    fs_stat fs t = Some m ->
    S_ISDIR m = true ->
    let t' := fst (fst (createFileList sep fs (S fuel) target files)) in
    ((isRecursive sep t = Some true /\
      t' = if ends_with sep t then t else slash sep t) \/
     (isRecursive sep t = Some false /\ t = t' ++ ".")) /\
    (ends_with sep target = false -> t' <> target).
Proof.
  intros sep fs fuel target t files m Hs Ht Hst Hdir. cbv zeta.
  assert (Hcases :
            (isRecursive sep t = Some true /\
             fst (fst (createFileList sep fs (S fuel) target files))
             = (if ends_with sep t then t else slash sep t)) \/
            (isRecursive sep t = Some false /\
             t = fst (fst (createFileList sep fs (S fuel) target files)) ++ ".")).
  { destruct (isRecursive_total sep t) as [Hr|Hr].
    - left. split; [exact Hr|].
      exact (createFileList_directory_target sep fs fuel target t _ files m true
               Hs Hst Hdir Hr (normalize_recursive sep t Ht)).
    - right. split; [exact Hr|].
      pose proof Hr as Hr'.
      apply isRecursive_false_marker in Hr' as (D & HD & E).
      assert (Hn : normalize sep false t = Some (slash sep D))
        by (rewrite E; apply normalize_marker).
      rewrite (createFileList_directory_target sep fs fuel target t _ files m
                 false Hs Hst Hdir Hr Hn).
      exact E. }
  split; [exact Hcases|].
  intros Hend.
  assert (Hne : target <> "") by (intros ->; discriminate).
  rewrite (strip_keeps sep target Hne Hend) in Hs. inversion Hs; subst t.
  destruct Hcases as [[_ ->]|[_ E]].
  - rewrite Hend. apply snoc_neq.
  - intros E'. rewrite E' in E. symmetry in E. revert E. apply snoc_neq.
Qed.

Lemma createFileList_rewrites_directive_witness :
  fst (fst (createFileList "/" Examples.src_tree 3 "src" [])) = "src/" /\
  fst (fst (createFileList "/" Examples.src_tree 3 "src" [])) <> "src".
Proof.
  pose proof (createFileList_rewrites_directive
                "/" Examples.src_tree 2 "src" "src" [] Examples.dir
                eq_refl ltac:(discriminate) eq_refl eq_refl) as [H1 H2].
  split.
  - destruct H1 as [[_ H]|[H _]]; [exact H | discriminate H].
  - apply H2. reflexivity.
Defined.

(** C10.  In the loop over the entries of a directory, [stat] comes before
    the test of the entry name: when the entries listed before [name] have
    been processed and [stat] fails on [name], the call throws the
    open-file error for that entry, whether or not the name begins with a
    dot, and the accumulator keeps what had been appended up to there. *)
Theorem createFileList_entry_stat_failure :
  forall (sep : ascii) (fs : FileSystem) (fuel : nat) (target t t' : string)
         (files files1 : list string) (m : Z) (isRec : bool)
         (pre : list string) (name : string) (post : list string),
    strip sep target = Some t ->
    fs_stat fs t = Some m ->
    S_ISDIR m = true ->
    isRecursive sep t = Some isRec ->
    normalize sep isRec t = Some t' ->
    fs_opendir fs t' = Some (pre ++ name :: post)%list ->
    readdirLoop fs (createFileList sep fs fuel) isRec t' pre files
    = (files1, Done) ->
    fs_stat fs (t' ++ name) = None ->
    createFileList sep fs (S fuel) target files
    = (t', files1, Raised (cannot_access (t' ++ name))) /\
    error (cannot_access (t' ++ name)) = ERR_OPEN_FILE /\
    exists added, files1 = (files ++ added)%list.
Proof.
  intros sep fs fuel target t t' files files1 m isRec pre name post
         Hs Hst Hdir Hrec Hn Hopen Hpre Hname.
  split; [|split; [reflexivity|]].
  - rewrite (createFileList_directory sep fs fuel _ _ _ files m isRec
               Hs Hst (ModeFacts.ISDIR_not_IFREG _ Hdir)
               (ModeFacts.ISDIR_has_IFDIR _ Hdir) Hrec Hn).
    rewrite Hopen.
    now rewrite (readdirLoop_stat_fails fs _ isRec t' pre name post Hname
                   files files1 Hpre).
  - destruct (readdirLoop_appends fs (createFileList sep fs fuel) isRec t' pre
                (createFileList_appends sep fs fuel) files) as [added Ha].
    rewrite Hpre in Ha. now exists added.
Qed.

(** A directory [d] listing [.], [..], [a.txt], the dangling hidden entry
    [.lock] and [z.txt]: the call throws at [.lock] with [d/a.txt]
    appended and [z.txt] never reached. *)
Lemma createFileList_entry_stat_failure_witness :
  hidden ".lock" = true /\
  createFileList "/" Examples.broken_tree 1 "d" []
  = ("d/", ["d/a.txt"], Raised (cannot_access "d/.lock")).
Proof.
  split; [reflexivity|].
  exact (proj1 (createFileList_entry_stat_failure
                  "/" Examples.broken_tree 0 "d" "d" "d/" [] ["d/a.txt"]
                  Examples.dir true [ "."; ".."; "a.txt" ] ".lock" [ "z.txt" ]
                  eq_refl eq_refl eq_refl eq_refl eq_refl eq_refl eq_refl
                  eq_refl)).
Defined.

(* ================================================================== *)
(** * The directory builder *)

(** Scenario: [mkdirAll("a/b/c")] in an empty working directory creates
    [a], [a/b] and [a/b/c] and returns 0; a second call returns 0 and
    leaves the tree as it is. *)
Example mkdirAll_relative_chain :
  mkdirAll "/" (Tree.mkdir "/") {| world := []; errno := 0 |} "a/b/c"
  = ({| world := ["a"; "a/b"; "a/b/c"]; errno := 0 |}, 0) /\
  mkdirAll "/" (Tree.mkdir "/")
           {| world := ["a"; "a/b"; "a/b/c"]; errno := 0 |} "a/b/c"
  = ({| world := ["a"; "a/b"; "a/b/c"]; errno := EEXIST |}, 0).
Proof. split; reflexivity. Qed.

(** C5.  The specification says that for a path whose chain the caller
    may create, [mkdirAll] returns 0 and the path exists afterwards.  The
    loop starts at index 0, so for a path that begins with the separator
    the first prefix it creates is the empty string.  In a tree where
    creating [/a] directly succeeds, [mkdirAll] on [/a] returns -1 with
    [errno] ENOENT and creates nothing. *)
Theorem mkdirAll_absolute_path_not_created :
  Tree.mkdir "/" [] "/a" = (["/a"], None) /\
  attempts "/" "/a" = [""; "/a"] /\
  mkdirAll "/" (Tree.mkdir "/") {| world := []; errno := 0 |} "/a"
  = ({| world := []; errno := ENOENT |}, -1).
Proof. repeat split. Qed.

(** C7.  [mkdirAll] returns -1 or 0, and -1 exactly when one of the calls
    it makes, in order and each in the tree the earlier ones left, fails
    with an [errno] other than EEXIST, every call before it having
    succeeded or failed with EEXIST.  The calls are on the prefixes of the
    path that end before a separator and on the path itself.  When every
    call succeeds or fails with EEXIST the result is 0 and the tree is the
    one those calls built.  The path is shorter than 2^32 characters, the
    range of the loop counter. *)
Theorem mkdirAll_returns_minus_one_iff_hard_failure :
  forall (sep : ascii) (World : Type)
         (sys_mkdir : World -> string -> World * option Z)
         (p : Process World) (path : string),
    Str.size path < 2 ^ UINT_WIDTH ->
    let r := snd (mkdirAll sep sys_mkdir p path) in
    (r = -1 \/ r = 0) /\
    (r = -1 <->
     exists done d rest w1,
       attempts sep path = (done ++ d :: rest)%list /\
       benign sys_mkdir (world p) done w1 /\
       fails_hard sys_mkdir w1 d) /\
    (forall w',
        benign sys_mkdir (world p) (attempts sep path) w' ->
        r = 0 /\ world (fst (mkdirAll sep sys_mkdir p path)) = w') /\
    (forall d,
        In d (attempts sep path) <->
        d = path \/ exists rest, path = d ++ String sep rest).
Proof.
  intros sep World sys_mkdir p path Hsz. cbv zeta.
  rewrite (mkdirAll_run sep World sys_mkdir p path Hsz).
  assert (Hhard :
            forall done d rest w1,
              attempts sep path = (done ++ d :: rest)%list ->
              benign sys_mkdir (world p) done w1 ->
              fails_hard sys_mkdir w1 d ->
              exists p', run sys_mkdir (set_errno p 0) (attempts sep path)
                         = (p', Some (-1))).
  { intros done d rest w1 E Hb Hf.
    destruct (benign_run World sys_mkdir _ _ _ Hb (set_errno p 0) eq_refl)
      as (p1 & H1 & Hl).
    rewrite E, Hl. apply fails_hard_run. now rewrite H1. }
  assert (Hall :
            forall w', benign sys_mkdir (world p) (attempts sep path) w' ->
                       exists p', world p' = w' /\
                                  run sys_mkdir (set_errno p 0)
                                      (attempts sep path) = (p', None)).
  { intros w' Hb.
    destruct (benign_run World sys_mkdir _ _ _ Hb (set_errno p 0) eq_refl)
      as (p1 & H1 & Hl).
    specialize (Hl []). rewrite List.app_nil_r in Hl.
    exists p1. now split. }
  destruct (run sys_mkdir (set_errno p 0) (attempts sep path))
    as [p' [r|]] eqn:Hrun; simpl.
  - destruct (run_some_fails World sys_mkdir _ _ _ _ Hrun) as [-> Hex].
    split; [now left|]. split; [now split|].
    split; [|apply In_attempts].
    intros w' Hb. destruct (Hall w' Hb) as (p1 & _ & E). discriminate.
  - split; [now right|]. split; [|split; [|apply In_attempts]].
    + split; [discriminate|].
      intros (done & d & rest & w1 & E & Hb & Hf).
      destruct (Hhard done d rest w1 E Hb Hf) as [p1 E1]. discriminate.
    + intros w' Hb. destruct (Hall w' Hb) as (p1 & H1 & E).
      inversion E; subst. now split.
Qed.

(** In an empty working directory [mkdirAll("a/b/c")] makes three calls
    that all succeed; it returns 0 and the tree holds the chain. *)
Lemma mkdirAll_returns_minus_one_iff_hard_failure_witness :
  Str.size "a/b/c" < 2 ^ UINT_WIDTH /\
  snd (mkdirAll "/" (Tree.mkdir "/") {| world := []; errno := 0 |} "a/b/c") = 0 /\
  world (fst (mkdirAll "/" (Tree.mkdir "/") {| world := []; errno := 0 |}
                       "a/b/c"))
  = ["a"; "a/b"; "a/b/c"].
Proof.
  split; [reflexivity|].
  refine (proj1 (proj2 (proj2 (mkdirAll_returns_minus_one_iff_hard_failure
                                 "/" Tree.t (Tree.mkdir "/")
                                 {| world := []; errno := 0 |} "a/b/c"
                                 eq_refl)))
                ["a"; "a/b"; "a/b/c"] _).
  do 3 (eapply benign_ok; [reflexivity|]).
  apply benign_nil.
Defined.

(** C9.  Creating the empty path fails, in every tree, with an [errno]
    other than EEXIST.  Then for every path that begins with the
    separator, whatever the tree and whatever else the system would allow,
    [mkdirAll] makes that one call and returns -1. *)
Theorem mkdirAll_leading_separator_fails :
  forall (sep : ascii) (World : Type)
         (sys_mkdir : World -> string -> World * option Z)
         (p : Process World) (rest : string),
    (forall w, fails_hard sys_mkdir w "") ->
    exists w' e,
      sys_mkdir (world p) "" = (w', Some e) /\ e <> EEXIST /\
      mkdirAll sep sys_mkdir p (String sep rest)
      = ({| world := w'; errno := e |}, -1).
Proof.
  intros sep World sys_mkdir p rest Hempty.
  destruct (Hempty (world p)) as (w' & e & Hd & Hne).
  exists w', e. split; [exact Hd|]. split; [exact Hne|].
  unfold mkdirAll. simpl String.length. cbn [mkdirAll_for].
  assert (Hlt : (0 <? Str.size (String sep rest)) = true).
  { apply Z.ltb_lt. unfold Str.size. simpl String.length. lia. }
  rewrite Hlt, StrFacts.at_0. simpl Str.first. rewrite Ascii.eqb_refl.
  assert (Hsub : Str.substr (String sep rest) 0 0 = "").
  { unfold Str.substr.
    replace (Z.min 0 (Str.size (String sep rest) - 0)) with 0
      by (unfold Str.size; lia).
    reflexivity. }
  rewrite Hsub. unfold _mkdir, set_errno. simpl world. rewrite Hd. simpl.
  destruct (Z.eqb_spec e EEXIST); [contradiction | reflexivity].
Qed.

Lemma Tree_mkdir_empty (sep : ascii) (w : Tree.t) :
  fails_hard (Tree.mkdir sep) w "".
Proof. exists w, ENOENT. split; [reflexivity | discriminate]. Qed.

Lemma mkdirAll_leading_separator_fails_witness :
  snd (mkdirAll "/" (Tree.mkdir "/") {| world := ["/a"]; errno := 0 |} "/a/b")
  = -1.
Proof.
  destruct (mkdirAll_leading_separator_fails
              "/" Tree.t (Tree.mkdir "/") {| world := ["/a"]; errno := 0 |}
              "a/b" (Tree_mkdir_empty "/")) as (w' & e & _ & _ & E).
  change (String "/" "a/b") with "/a/b" in E.
  rewrite E. reflexivity.
Defined.

(* ================================================================== *)
(** * The encoder contract *)

Lemma encode_spec
      (refuses : EntropyEncoder.OutputBitStream -> nat -> bool)
      (on_refusal : EntropyEncoder.Refusal)
      (Coder : Type) (code : Coder -> Z -> Coder * list (Z * nat))
      (e : EntropyEncoder.Encoder Coder) (block : list Z) (blkptr len : Z) :
  EntropyEncoder.phase e = EntropyEncoder.Active ->
  0 <= blkptr ->
  0 <= len ->
  blkptr + len <= Z.of_nat (List.length block) ->
  let r := EntropyEncoder.encode refuses on_refusal Coder code e block
                                 blkptr len in
  (EntropyEncoder.written (EntropyEncoder.bitstream e)
   <= EntropyEncoder.written (EntropyEncoder.bitstream (fst r)))%nat /\
  (snd r = inr (EntropyEncoder.to_int len) \/
   ((exists s n, refuses s n = true) /\
    match on_refusal with
    | EntropyEncoder.Signal => snd r = inl EntropyEncoder.StreamWrite
    | EntropyEncoder.ShortCount =>
        exists k, snd r = inr (EntropyEncoder.to_int k) /\ 0 <= k < len
    end)).
Proof.
  intros Hact Hb Hl Hlen. cbv zeta.
  unfold EntropyEncoder.encode. rewrite Hact.
  destruct (Z.leb_spec 0 blkptr); [|lia].
  destruct (Z.leb_spec 0 len); [|lia].
  destruct (Z.leb_spec (blkptr + len) (Z.of_nat (List.length block))); [|lia].
  cbn [andb].
  assert (Hsrc : Z.of_nat (List.length
                             (List.firstn (Z.to_nat len)
                                          (List.skipn (Z.to_nat blkptr) block)))
                 = len).
  { rewrite List.length_firstn, List.length_skipn. lia. }
  pose proof (encode_bytes_spec refuses on_refusal Coder code
                (List.firstn (Z.to_nat len) (List.skipn (Z.to_nat blkptr) block))
                (EntropyEncoder.coder e) (EntropyEncoder.bitstream e) 0)
    as Hspec.
  cbv zeta in Hspec. rewrite Hsrc in Hspec. rewrite Z.add_0_l in Hspec.
  destruct (EntropyEncoder.encode_bytes _ _ _ _ _ _ _ _) as [[c s] r].
  simpl in Hspec. destruct Hspec as [Hw Hr].
  destruct Hr as [->|[Hex Hr]].
  - simpl. split; [exact Hw|]. now left.
  - destruct on_refusal.
    + subst r. simpl. split; [exact Hw|]. right. now split.
    + destruct Hr as (k & -> & Hk). simpl. split; [exact Hw|].
      right. split; [exact Hex|]. now exists k.
Qed.




(* ================================================================== *)
(** * Further properties of the path enumerator *)

Section EnumerationProperties.

Variable sep : ascii.
Variable fs : FileSystem.

Lemma readdirLoop_frame
      (recurse : string -> list string -> string * list string * outcome)
      (isRec : bool) (target : string) (ents : list string) :
  (forall p files,
      snd (fst (recurse p files)) = (files ++ snd (fst (recurse p [])))%list /\
      snd (recurse p files) = snd (recurse p [])) ->
  forall files,
    fst (readdirLoop fs recurse isRec target ents files)
    = (files ++ fst (readdirLoop fs recurse isRec target ents []))%list /\
    snd (readdirLoop fs recurse isRec target ents files)
    = snd (readdirLoop fs recurse isRec target ents []).
Proof.
  intros Hrec. induction ents as [|d ents IH]; intros files; simpl.
  - now rewrite List.app_nil_r.
  - destruct (fs_stat fs (target ++ d)) as [m|];
      [|simpl; now rewrite List.app_nil_r].
    destruct (negb (Ascii.eqb (Str.first d) ".")); [|apply IH].
    destruct (has_IFREG m).
    { destruct (IH (files ++ [(target ++ d)%string])%list) as [H1 H2].
      destruct (IH [(target ++ d)%string]) as [H3 H4].
      simpl List.app. rewrite H1, H2, H3, H4.
      now rewrite <- List.app_assoc. }
    destruct (isRec && has_IFDIR m); [|apply IH].
    destruct (Hrec (target ++ d) files) as [Ha Ho].
    destruct (recurse (target ++ d) files) as [[t1 f1] o1].
    destruct (recurse (target ++ d) []) as [[t0 f0] o0].
    simpl in Ha, Ho. subst f1 o1.
    destruct o0; simpl; auto.
    destruct (IH (files ++ f0)%list) as [H1 H2].
    destruct (IH f0) as [H3 H4].
    rewrite H1, H2, H3, H4. now rewrite <- List.app_assoc.
Qed.

Lemma createFileList_frame (fuel : nat) :
  forall target files,
    fst (fst (createFileList sep fs fuel target files))
    = fst (fst (createFileList sep fs fuel target [])) /\
    snd (fst (createFileList sep fs fuel target files))
    = (files ++ snd (fst (createFileList sep fs fuel target [])))%list /\
    snd (createFileList sep fs fuel target files)
    = snd (createFileList sep fs fuel target []).
Proof.
  induction fuel as [|fuel IH]; intros target files.
  - simpl. now rewrite List.app_nil_r.
  - assert (Hnil : files = (files ++ [])%list) by now rewrite List.app_nil_r.
    cbn [createFileList].
    destruct (strip sep target) as [t|]; [|now simpl].
    destruct (fs_stat fs t) as [m|]; [|now simpl].
    destruct (has_IFREG m).
    { destruct (Str.at_ t 0) as [c|]; [|now simpl].
      destruct (negb (Ascii.eqb c ".")); now simpl. }
    destruct (negb (has_IFDIR m)); [now simpl|].
    destruct (isRecursive sep t) as [isRec|]; [|now simpl].
    destruct (normalize sep isRec t) as [t'|]; [|now simpl].
    destruct (fs_opendir fs t') as [ents|]; [|now simpl].
    assert (Hrec : forall p fl,
               snd (fst (createFileList sep fs fuel p fl))
               = (fl ++ snd (fst (createFileList sep fs fuel p [])))%list /\
               snd (createFileList sep fs fuel p fl)
               = snd (createFileList sep fs fuel p [])).
    { intros p fl. destruct (IH p fl) as (_ & H1 & H2). now split. }
    destruct (readdirLoop_frame (createFileList sep fs fuel) isRec t' ents
                                Hrec files) as [H1 H2].
    destruct (readdirLoop fs _ isRec t' ents files) as [f o].
    destruct (readdirLoop fs _ isRec t' ents []) as [f0 o0].
    simpl in *. now subst.
Qed.

Lemma readdirLoop_adds_IFREG
      (recurse : string -> list string -> string * list string * outcome)
      (isRec : bool) (target : string) (ents : list string) :
  (forall p files q,
      In q (snd (fst (recurse p files))) -> In q files \/ stat_IFREG fs q) ->
  forall files q,
    In q (fst (readdirLoop fs recurse isRec target ents files)) ->
    In q files \/ stat_IFREG fs q.
Proof.
  intros Hrec. induction ents as [|d ents IH]; intros files q; simpl.
  - now left.
  - destruct (fs_stat fs (target ++ d)) as [m|] eqn:Hm; [|now left].
    destruct (negb (Ascii.eqb (Str.first d) ".")); [|apply IH].
    destruct (has_IFREG m) eqn:Hreg.
    { intros H. apply IH in H as [H|H]; [|now right].
      apply List.in_app_or in H as [H|[<-|[]]]; [now left | right].
      now exists m. }
    destruct (isRec && has_IFDIR m); [|apply IH].
    pose proof (Hrec (target ++ d) files) as Hd.
    destruct (recurse (target ++ d) files) as [[t1 f1] o1]. simpl in Hd.
    destruct o1; try (simpl; apply Hd).
    intros H. apply IH in H as [H|H]; [now apply Hd | now right].
Qed.

Lemma createFileList_adds_IFREG (fuel : nat) :
  forall target files q,
    In q (snd (fst (createFileList sep fs fuel target files))) ->
    In q files \/ stat_IFREG fs q.
Proof.
  induction fuel as [|fuel IH]; intros target files q; [now left|].
  cbn [createFileList].
  destruct (strip sep target) as [t|]; [|now left].
  destruct (fs_stat fs t) as [m|] eqn:Hm; [|now left].
  destruct (has_IFREG m) eqn:Hreg.
  { destruct (Str.at_ t 0) as [c|]; [|now left].
    destruct (negb (Ascii.eqb c ".")); [|now left].
    simpl. intros H. apply List.in_app_or in H as [H|[<-|[]]];
      [now left | right]. now exists m. }
  destruct (negb (has_IFDIR m)); [now left|].
  destruct (isRecursive sep t) as [isRec|]; [|now left].
  destruct (normalize sep isRec t) as [t'|]; [|now left].
  destruct (fs_opendir fs t') as [ents|]; [|now left].
  pose proof (readdirLoop_adds_IFREG (createFileList sep fs fuel) isRec t'
                                     ents IH files q) as Hl.
  destruct (readdirLoop _ _ _ _ _ _) as [f o]. exact Hl.
Qed.

(** Hidden entries only count through their [stat]: when it answers for
    each of them, the loop runs as if they were not listed. *)
Lemma readdirLoop_skips_hidden
      (recurse : string -> list string -> string * list string * outcome)
      (isRec : bool) (target : string) (ents : list string) :
  (forall name, In name ents -> hidden name = true ->
                fs_stat fs (target ++ name) <> None) ->
  forall files,
    readdirLoop fs recurse isRec target ents files =
    readdirLoop fs recurse isRec target
                (List.filter (fun name => negb (hidden name)) ents) files.
Proof.
  induction ents as [|d ents IH]; intros Hst files; [reflexivity|].
  assert (Hst' : forall name, In name ents -> hidden name = true ->
                              fs_stat fs (target ++ name) <> None).
  { intros name Hin. apply Hst. now right. }
  cbn [List.filter]. unfold hidden at 1.
  destruct (Ascii.eqb (Str.first d) ".") eqn:Hd; cbn [negb].
  - cbn [readdirLoop]. rewrite Hd. cbn [negb].
    destruct (fs_stat fs (target ++ d)) as [m|] eqn:Hm.
    + now apply IH.
    + exfalso. apply (Hst d); [now left | exact Hd | exact Hm].
  - cbn [readdirLoop]. rewrite Hd. cbn [negb].
    destruct (fs_stat fs (target ++ d)) as [m|]; [|reflexivity].
    destruct (has_IFREG m); [now apply IH|].
    destruct (isRec && has_IFDIR m); [|now apply IH].
    destruct (recurse (target ++ d) files) as [[t1 f1] o1].
    destruct o1; try reflexivity. now apply IH.
Qed.

End EnumerationProperties.

Section RecursiveWalk.

Variable sep : ascii.
Variable fs : FileSystem.

Lemma contains_app (c : ascii) (p q : string) :
  contains c (p ++ q) = contains c p || contains c q.
Proof.
  induction p as [|a p IH]; simpl; [reflexivity|].
  now rewrite IH, orb_assoc.
Qed.

Lemma contains_snoc_false (c : ascii) (q : string) (a : ascii) :
  contains c (q ++ String a "") = false ->
  contains c q = false /\ Ascii.eqb a c = false.
Proof.
  rewrite contains_app. simpl. rewrite orb_false_r.
  intros H. now apply orb_false_elim in H.
Qed.

(** A path that ends in an entry name never ends with the separator. *)
Lemma ends_with_entry (prefix d : string) :
  d <> "" -> contains sep d = false ->
  ends_with sep (prefix ++ d) = false.
Proof.
  intros Hd Hc. destruct (StrFacts.snoc_cases d) as [->|(q & a & ->)];
    [congruence|].
  apply contains_snoc_false in Hc as [_ Ha].
  now rewrite <- StrFacts.app_assoc, ends_with_snoc.
Qed.

(** Nor is it a non-recursive marker, unless the entry is hidden. *)
Lemma isRecursive_entry (prefix d : string) :
  d <> "" -> contains sep d = false -> hidden d = false ->
  isRecursive sep (prefix ++ d) = Some true.
Proof.
  intros Hd Hc Hh.
  destruct (isRecursive_total sep (prefix ++ d)) as [H|H]; [exact H|].
  exfalso. apply isRecursive_false_marker in H as (D & _ & E).
  destruct (StrFacts.snoc_cases d) as [->|(q & a & ->)]; [congruence|].
  rewrite <- StrFacts.app_assoc in E.
  apply StrFacts.snoc_inj in E as [E ->].
  destruct (StrFacts.snoc_cases q) as [->|(q' & b & ->)].
  - simpl in Hh. unfold hidden in Hh. simpl in Hh. discriminate.
  - unfold slash in E. rewrite <- StrFacts.app_assoc in E.
    apply StrFacts.snoc_inj in E as [_ ->].
    rewrite contains_app in Hc. apply orb_false_elim in Hc as [Hc _].
    apply contains_snoc_false in Hc as [_ Hc].
    now rewrite Ascii.eqb_refl in Hc.
Qed.

(** The call of line 94 on an entry that is entered. *)
Lemma createFileList_entry
      (fuel : nat) (prefix d : string) (m : Z) (files : list string) :
  d <> "" -> contains sep d = false -> entered d m = true ->
  fs_stat fs (prefix ++ d) = Some m ->
  createFileList sep fs (S fuel) (prefix ++ d) files =
  match fs_opendir fs (slash sep (prefix ++ d)) with
  | Some ents =>
      let (files', o) :=
        readdirLoop fs (createFileList sep fs fuel) true
                    (slash sep (prefix ++ d)) ents files in
      (slash sep (prefix ++ d), files', o)
  | None => (slash sep (prefix ++ d), files,
             Raised (cannot_read (slash sep (prefix ++ d))))
  end.
Proof.
  intros Hd Hc He Hst. unfold entered in He.
  apply andb_prop in He as [He Hdir]. apply andb_prop in He as [Hh Hreg].
  apply negb_true_iff in Hh, Hreg.
  assert (Hne : prefix ++ d <> "").
  { destruct prefix; [exact Hd | discriminate]. }
  pose proof (ends_with_entry prefix d Hd Hc) as Hend.
  apply (createFileList_directory sep fs fuel _ (prefix ++ d) _ files m true).
  - now apply strip_keeps.
  - exact Hst.
  - exact Hreg.
  - exact Hdir.
  - now apply isRecursive_entry.
  - rewrite (normalize_recursive sep _ Hne). now rewrite Hend.
Qed.

Lemma depth_entry_le (d : string) (m : Z) (below rest : listing) (fuel : nat) :
  (depth (Entry d m below rest) <= fuel)%nat ->
  (depth rest <= fuel)%nat /\
  (entered d m = true -> exists fuel', fuel = S fuel' /\
                                       (depth below <= fuel')%nat).
Proof.
  simpl. intros H. split; [lia|].
  intros He. rewrite He in H. destruct fuel as [|fuel']; [lia|].
  exists fuel'. split; [reflexivity | lia].
Qed.

(** When the file system shows a listing under a prefix, the loop in
    recursive mode appends its walk and completes, given one level of
    recursion per level of directories entered. *)
Lemma readdirLoop_walk (l : listing) :
  forall (prefix : string) (fuel : nat) (files : list string),
    shows sep fs prefix l ->
    (depth l <= fuel)%nat ->
    readdirLoop fs (createFileList sep fs fuel) true prefix (names l) files
    = ((files ++ walk sep prefix l)%list, Done).
Proof.
  induction l as [|d m below IHb rest IHr]; intros prefix fuel files Hs Hd.
  - simpl. now rewrite List.app_nil_r.
  - destruct Hs as (Hst & Hent & Hrest).
    destruct (depth_entry_le d m below rest fuel Hd) as [Hdr Hdb].
    cbn [names readdirLoop walk]. rewrite Hst.
    fold (hidden d).
    destruct (hidden d) eqn:Hh; cbn [negb].
    { now apply IHr. }
    destruct (has_IFREG m) eqn:Hreg.
    { rewrite (IHr prefix fuel _ Hrest Hdr).
      now rewrite <- List.app_assoc. }
    cbn [andb].
    destruct (has_IFDIR m) eqn:Hdir.
    2:{ now apply IHr. }
    assert (He : entered d m = true).
    { unfold entered. now rewrite Hh, Hreg, Hdir. }
    destruct (Hent He) as (Hne & Hc & Hopen & Hbelow).
    destruct (Hdb He) as (fuel' & -> & Hdb').
    rewrite (createFileList_entry fuel' prefix d m files Hne Hc He Hst).
    rewrite Hopen.
    rewrite (IHb (slash sep (prefix ++ d)) fuel' files Hbelow Hdb').
    rewrite (IHr prefix (S fuel') _ Hrest Hdr).
    now rewrite <- List.app_assoc.
Qed.

End RecursiveWalk.

(** X1.  The enumerator only appends, and what it appends, the string it
    leaves in [target] and the way it ends do not depend on what the
    accumulator already holds: a call on [files] is the call on the empty
    accumulator with [files] in front. *)
Theorem createFileList_appends_independently :
  forall (sep : ascii) (fs : FileSystem) (fuel : nat) (target : string)
         (files : list string),
    createFileList sep fs fuel target files =
    (fst (fst (createFileList sep fs fuel target [])),
     (files ++ snd (fst (createFileList sep fs fuel target [])))%list,
     snd (createFileList sep fs fuel target [])).
Proof.
  intros sep fs fuel target files.
  destruct (createFileList_frame sep fs fuel target files) as (H1 & H2 & H3).
  destruct (createFileList sep fs fuel target files) as [[t f] o].
  simpl in *. now subst.
Qed.

(** X2.  On a file system where [stat] rejects the empty path, a call on
    a non-empty directive never indexes a string out of bounds, at any
    depth of the recursion and whatever the directories list. *)
Theorem createFileList_no_out_of_bounds :
  forall (sep : ascii) (fs : FileSystem) (fuel : nat) (target : string)
         (files : list string),
    fs_stat fs "" = None ->
    target <> "" ->
    snd (createFileList sep fs fuel target files) <> Undefined.
Proof.
  intros sep fs fuel target files Hst Hne.
  now apply createFileList_defined.
Qed.

Lemma createFileList_no_out_of_bounds_witness :
  fs_stat Examples.src_tree "" = None /\
  snd (createFileList "/" Examples.src_tree 3 "src//" []) <> Undefined.
Proof.
  split; [reflexivity|].
  apply (createFileList_no_out_of_bounds "/" Examples.src_tree 3 "src//" []);
    [reflexivity | discriminate].
Defined.

Lemma has_IFREG_testbit (m : Z) : has_IFREG m = Z.testbit m 15.
Proof.
  unfold has_IFREG, S_IFREG. change 0x8000 with (2 ^ 15).
  destruct (Z.testbit m 15) eqn:Hb.
  - apply negb_true_iff, Z.eqb_neq. intros H.
    apply (f_equal (fun z => Z.testbit z 15)) in H.
    rewrite Z.land_spec, Hb, Z.pow2_bits_true, Z.bits_0 in H by lia.
    discriminate.
  - apply negb_false_iff, Z.eqb_eq. apply Z.bits_inj'. intros n Hn.
    rewrite Z.land_spec, Z.bits_0, Z.pow2_bits_eqb by lia.
    destruct (Z.eqb_spec 15 n) as [<-|]; [now rewrite Hb|].
    apply andb_false_r.
Qed.

Lemma IFREG_excludes_types (m : Z) :
  has_IFREG m = true ->
  S_ISDIR m = false /\
  Z.land m S_IFMT <> S_IFCHR /\ Z.land m S_IFMT <> S_IFIFO.
Proof.
  unfold has_IFREG, S_ISDIR. rewrite ModeFacts.land_IFREG.
  intros H. apply negb_true_iff, Z.eqb_neq in H.
  repeat split.
  - apply Z.eqb_neq. intros E. rewrite E in H. now apply H.
  - intros E. rewrite E in H. now apply H.
  - intros E. rewrite E in H. now apply H.
Qed.

(** X3.  Every path the enumerator appends is one [stat] succeeded on
    with the S_IFREG bit, 0x8000, set in the mode.  So it never appends a
    path [stat] fails on, nor one whose type field is that of a
    directory, a character device or a pipe. *)
Theorem createFileList_appends_only_IFREG :
  forall (sep : ascii) (fs : FileSystem) (fuel : nat) (target : string)
         (files : list string) (q : string),
    In q (snd (fst (createFileList sep fs fuel target files))) ->
    In q files \/
    exists m, fs_stat fs q = Some m /\
              Z.testbit m 15 = true /\
              S_ISDIR m = false /\
              Z.land m S_IFMT <> S_IFCHR /\ Z.land m S_IFMT <> S_IFIFO.
Proof.
  intros sep fs fuel target files q H.
  apply createFileList_adds_IFREG in H as [H|(m & Hm & Hreg)];
    [now left | right].
  exists m. split; [exact Hm|]. split.
  - now rewrite <- has_IFREG_testbit.
  - now apply IFREG_excludes_types.
Qed.

Lemma createFileList_appends_only_IFREG_witness :
  exists m, fs_stat Examples.src_tree "src/sub/c.txt" = Some m /\
            Z.testbit m 15 = true /\ S_ISDIR m = false.
Proof.
  assert (Hin : In "src/sub/c.txt"
                   (snd (fst (createFileList "/" Examples.src_tree 2 "src" [])))).
  { simpl. right. right. now left. }
  destruct (createFileList_appends_only_IFREG
              "/" Examples.src_tree 2 "src" [] "src/sub/c.txt" Hin)
    as [H|(m & H1 & H2 & H3 & _)].
  - destruct H.
  - exists m. now repeat split.
Defined.

(** X4.  A recursive call on a directory whose content the file system
    shows as a listing appends exactly the walk of that listing: the
    entries that are not hidden and have the S_IFREG bit, of the directory
    and of every entry below it that is entered (not hidden, without the
    S_IFREG bit, with the S_IFDIR bit), depth first in listing order, each
    under the path of its directory; every hidden entry is left out.  The
    call returns normally, given one level of recursion per level of
    directories entered. *)
Theorem createFileList_recursive_walk :
  forall (sep : ascii) (fs : FileSystem) (fuel : nat) (target t : string)
         (files : list string) (m : Z) (l : listing),
    strip sep target = Some t ->
    t <> "" ->
    fs_stat fs t = Some m ->
    S_ISDIR m = true ->
    isRecursive sep t = Some true ->
    let t' := if ends_with sep t then t else slash sep t in
    fs_opendir fs t' = Some (names l) ->
    shows sep fs t' l ->
    (depth l <= fuel)%nat ->
    createFileList sep fs (S fuel) target files
    = (t', (files ++ walk sep t' l)%list, Done).
Proof.
  intros sep fs fuel target t files m l Hs Ht Hst Hdir Hrec t' Hopen Hsh Hd.
  rewrite (createFileList_directory sep fs fuel target t t' files m true
             Hs Hst (ModeFacts.ISDIR_not_IFREG _ Hdir)
             (ModeFacts.ISDIR_has_IFDIR _ Hdir) Hrec
             (normalize_recursive sep t Ht)).
  rewrite Hopen. now rewrite (readdirLoop_walk sep fs l t' fuel files Hsh Hd).
Qed.

Lemma createFileList_recursive_walk_witness :
  createFileList "/" Examples.src_tree 2 "src" []
  = ("src/", ["src/a.txt"; "src/b.txt"; "src/sub/c.txt"], Done).
Proof.
  pose (sub := Entry "." Examples.dir Empty
                 (Entry ".." Examples.dir Empty
                    (Entry "c.txt" Examples.reg Empty Empty))).
  pose (l := Entry "." Examples.dir Empty
               (Entry ".." Examples.dir Empty
                  (Entry "a.txt" Examples.reg Empty
                     (Entry "b.txt" Examples.reg Empty
                        (Entry "sub" Examples.dir sub Empty))))).
  refine (createFileList_recursive_walk
            "/" Examples.src_tree 1 "src" "src" [] Examples.dir l
            eq_refl _ eq_refl eq_refl eq_refl eq_refl _ _).
  - discriminate.
  - simpl. repeat split; discriminate.
  - simpl. lia.
Defined.

(** X5.  Hidden entries, [.] and [..] among them, influence the loop
    over a directory only through their [stat]: when it succeeds on each
    of them, the loop appends the same paths and ends the same way as on
    the listing without them. *)
Theorem readdirLoop_hidden_entries_ignored :
  forall (fs : FileSystem)
         (recurse : string -> list string -> string * list string * outcome)
         (isRec : bool) (target : string) (ents files : list string),
    (forall name, In name ents -> hidden name = true ->
                  fs_stat fs (target ++ name) <> None) ->
    readdirLoop fs recurse isRec target ents files =
    readdirLoop fs recurse isRec target
                (List.filter (fun name => negb (hidden name)) ents) files.
Proof.
  intros fs recurse isRec target ents files H.
  now apply readdirLoop_skips_hidden.
Qed.

Lemma readdirLoop_hidden_entries_ignored_witness :
  readdirLoop Examples.src_tree (createFileList "/" Examples.src_tree 1) true
              "src/" [ "."; ".."; "a.txt"; "b.txt"; "sub" ] []
  = readdirLoop Examples.src_tree (createFileList "/" Examples.src_tree 1) true
                "src/" [ "a.txt"; "b.txt"; "sub" ] [].
Proof.
  refine (readdirLoop_hidden_entries_ignored
            Examples.src_tree (createFileList "/" Examples.src_tree 1) true
            "src/" [ "."; ".."; "a.txt"; "b.txt"; "sub" ] [] _).
  intros name Hin Hh. simpl in Hin.
  destruct Hin as [<-|[<-|[<-|[<-|[<-|[]]]]]]; discriminate.
Defined.

Lemma device_mode_tests (m : Z) :
  Z.land m S_IFMT = S_IFCHR \/ Z.land m S_IFMT = S_IFIFO ->
  has_IFREG m = false /\ has_IFDIR m = false.
Proof.
  unfold has_IFREG, has_IFDIR.
  rewrite ModeFacts.land_IFREG, ModeFacts.land_IFDIR.
  intros [-> | ->]; split; reflexivity.
Qed.

(** X6.  A character device or a pipe given as the target makes the call
    throw the open-file error for an invalid file type, with nothing
    appended; the same object met as an entry of a directory is passed
    over without an error. *)
Theorem createFileList_device :
  forall (sep : ascii) (fs : FileSystem) (m : Z),
    Z.land m S_IFMT = S_IFCHR \/ Z.land m S_IFMT = S_IFIFO ->
    (forall (fuel : nat) (target t : string) (files : list string),
        strip sep target = Some t ->
        fs_stat fs t = Some m ->
        createFileList sep fs (S fuel) target files
        = (t, files, Raised (invalid_type t)) /\
        error (invalid_type t) = ERR_OPEN_FILE) /\
    (forall recurse (isRec : bool) (target d_name : string)
            (rest files : list string),
        fs_stat fs (target ++ d_name) = Some m ->
        readdirLoop fs recurse isRec target (d_name :: rest) files
        = readdirLoop fs recurse isRec target rest files).
Proof.
  intros sep fs m Hm. destruct (device_mode_tests m Hm) as [Hreg Hdir].
  split.
  - intros fuel target t files Hs Hst. split; [|reflexivity].
    cbn [createFileList]. now rewrite Hs, Hst, Hreg, Hdir.
  - intros recurse isRec target d rest files Hst.
    cbn [readdirLoop]. rewrite Hst, Hreg, Hdir, andb_false_r.
    now destruct (negb (Ascii.eqb (Str.first d) ".")).
Qed.

Lemma createFileList_device_witness :
  createFileList "/" Examples.odd_tree 1 "con" ["a"]
  = ("con", ["a"], Raised (invalid_type "con")) /\
  createFileList "/" Examples.odd_tree 1 "d" ["a"] = ("d/", ["a"], Done).
Proof.
  assert (Hm : Z.land Examples.chr S_IFMT = S_IFCHR \/
               Z.land Examples.chr S_IFMT = S_IFIFO) by (left; reflexivity).
  destruct (createFileList_device "/" Examples.odd_tree Examples.chr Hm)
    as [Htop Hent].
  split.
  - exact (proj1 (Htop 0%nat "con" "con" ["a"] eq_refl eq_refl)).
  - pose proof (Hent (createFileList "/" Examples.odd_tree 0) true "d/" "con"
                     [] ["a"] eq_refl) as Hskip.
    change (createFileList "/" Examples.odd_tree 1 "d" ["a"])
      with (let (files', o) :=
              readdirLoop Examples.odd_tree
                          (createFileList "/" Examples.odd_tree 0) true
                          "d/" ["con"] ["a"] in
            ("d/", files', o)).
    now rewrite Hskip.
Defined.

(** X7.  The regular-file test comes first and looks at one bit of the
    mode, 0x8000: a target whose mode has that bit is handled as a file,
    appended unless the directive begins with a dot and never opened as a
    directory, whatever the other type bits say. *)
Theorem createFileList_IFREG_bit_decides :
  forall (sep : ascii) (fs : FileSystem) (fuel : nat) (target t : string)
         (files : list string) (m : Z),
    strip sep target = Some t ->
    fs_stat fs t = Some m ->
    Z.testbit m 15 = true ->
    createFileList sep fs (S fuel) target files
    = (t, if hidden t then files else (files ++ [t])%list, Done).
Proof.
  intros sep fs fuel target t files m Hs Hst Hb.
  apply (createFileList_regular sep fs fuel target t files m Hs Hst).
  now rewrite has_IFREG_testbit.
Qed.

Lemma createFileList_IFREG_bit_decides_witness :
  has_IFDIR Examples.both = true /\
  createFileList "/" Examples.odd_tree 1 "s" [] = ("s", ["s"], Done).
Proof.
  split; [reflexivity|].
  exact (createFileList_IFREG_bit_decides
           "/" Examples.odd_tree 0 "s" "s" [] Examples.both
           eq_refl eq_refl eq_refl).
Defined.

(* ================================================================== *)
(** * Further properties of the directory builder *)

Section MkdirAllProperties.

Variable sep : ascii.
Variable World : Type.
Variable sys_mkdir : World -> string -> World * option Z.

Lemma run_errno (ds : list string) :
  forall p p' res,
    run sys_mkdir p ds = (p', res) ->
    errno p = 0 \/ errno p = EEXIST ->
    match res with
    | None => errno p' = 0 \/ errno p' = EEXIST
    | Some _ => errno p' <> EEXIST
    end.
Proof.
  induction ds as [|d ds IH]; intros p p' res H He.
  - inversion H; subst. exact He.
  - rewrite run_step in H.
    destruct (sys_mkdir (world p) d) as [w [e|]] eqn:Hd.
    + destruct (Z.eqb_spec e EEXIST) as [Heq|Hne].
      * apply (IH _ _ _ H). now right.
      * inversion H; subst. exact Hne.
    + apply (IH _ _ _ H). exact He.
Qed.

Lemma run_some_state (ds : list string) :
  forall p p' r,
    run sys_mkdir p ds = (p', Some r) ->
    exists done d rest w1 w2 e,
      ds = (done ++ d :: rest)%list /\
      benign sys_mkdir (world p) done w1 /\
      sys_mkdir w1 d = (w2, Some e) /\ e <> EEXIST /\
      p' = {| world := w2; errno := e |}.
Proof.
  induction ds as [|d ds IH]; intros p p' r H; [discriminate|].
  rewrite run_step in H.
  destruct (sys_mkdir (world p) d) as [w [e|]] eqn:Hd.
  - destruct (Z.eqb_spec e EEXIST) as [->|Hne].
    + destruct (IH _ _ _ H)
        as (done & d' & rest & w1 & w2 & e & -> & Hb & Hf & Hne & ->).
      exists (d :: done), d', rest, w1, w2, e.
      repeat split; try assumption.
      eapply benign_exists; [exact Hd | exact Hb].
    + inversion H; subst.
      exists [], d, ds, (world p), w, e.
      repeat split; try assumption. constructor.
  - destruct (IH _ _ _ H)
      as (done & d' & rest & w1 & w2 & e & -> & Hb & Hf & Hne & ->).
    exists (d :: done), d', rest, w1, w2, e.
    repeat split; try assumption.
    eapply benign_ok; [exact Hd | exact Hb].
Qed.

Lemma prefixes_from_none (path rest : string) :
  contains sep rest = false ->
  forall i, prefixes_from sep path i rest = [].
Proof.
  induction rest as [|c rest IH]; intros Hc i; [reflexivity|].
  simpl in Hc. apply orb_false_elim in Hc as [Hc Hr].
  cbn [prefixes_from]. rewrite Hc. now apply IH.
Qed.

Lemma prefixes_from_app (path r1 r2 : string) :
  forall i,
    prefixes_from sep path i (r1 ++ r2) =
    (prefixes_from sep path i r1
     ++ prefixes_from sep path (i + String.length r1) r2)%list.
Proof.
  induction r1 as [|c r1 IH]; intros i.
  - simpl. now rewrite Nat.add_0_r.
  - cbn [String.append prefixes_from String.length].
    rewrite IH. replace (S i + String.length r1)%nat
      with (i + S (String.length r1))%nat by lia.
    now destruct (Ascii.eqb c sep).
Qed.

(** What follows a segment of the path does not change the prefixes cut
    inside the segment. *)
Lemma prefixes_from_tail (rest tail : string) :
  forall pre,
    prefixes_from sep (pre ++ rest ++ tail) (String.length pre) rest =
    prefixes_from sep (pre ++ rest) (String.length pre) rest.
Proof.
  induction rest as [|c rest IH]; intros pre; [reflexivity|].
  assert (Hlen : S (String.length pre) = String.length (pre ++ String c "")).
  { rewrite StrFacts.length_app. simpl. lia. }
  remember (pre ++ String c rest ++ tail) as P eqn:HP.
  remember (pre ++ String c rest) as Q eqn:HQ.
  assert (SP : String.substring 0 (String.length pre) P = pre)
    by (subst P; apply StrFacts.substring_prefix).
  assert (SQ : String.substring 0 (String.length pre) Q = pre)
    by (subst Q; apply StrFacts.substring_prefix).
  assert (EP : P = (pre ++ String c "") ++ rest ++ tail)
    by (subst P; now rewrite StrFacts.app_assoc).
  assert (EQ : Q = (pre ++ String c "") ++ rest)
    by (subst Q; now rewrite StrFacts.app_assoc).
  cbn [prefixes_from]. rewrite SP, SQ, Hlen.
  clear HP HQ SP SQ. subst P Q. rewrite IH. reflexivity.
Qed.

Lemma attempts_child (parent child : string) :
  contains sep child = false ->
  attempts sep (parent ++ String sep child) =
  (attempts sep parent ++ [(parent ++ String sep child)%string])%list.
Proof.
  intros Hc. unfold attempts. f_equal.
  rewrite prefixes_from_app.
  pose proof (prefixes_from_tail parent (String sep child) "") as Ht.
  simpl String.append in Ht at 1 3. simpl String.length in Ht.
  rewrite Ht. f_equal.
  cbn [prefixes_from Nat.add]. rewrite Ascii.eqb_refl.
  rewrite StrFacts.substring_prefix.
  now rewrite prefixes_from_none.
Qed.

Lemma attempts_single (path : string) :
  contains sep path = false -> attempts sep path = [path].
Proof.
  intros Hc. unfold attempts. now rewrite prefixes_from_none.
Qed.

End MkdirAllProperties.

(** X8.  [mkdirAll] clears [errno] first, so what it leaves there speaks
    of its own calls only: after a return of 0 it is 0 or EEXIST,
    whatever it was before the call, and after a return of -1 it is not
    EEXIST. *)
Theorem mkdirAll_errno_after :
  forall (sep : ascii) (World : Type)
         (sys_mkdir : World -> string -> World * option Z)
         (p : Process World) (path : string),
    Str.size path < 2 ^ UINT_WIDTH ->
    let r := mkdirAll sep sys_mkdir p path in
    (snd r = 0 -> errno (fst r) = 0 \/ errno (fst r) = EEXIST) /\
    (snd r = -1 -> errno (fst r) <> EEXIST).
Proof.
  intros sep World sys_mkdir p path Hsz. cbv zeta.
  rewrite (mkdirAll_run sep World sys_mkdir p path Hsz).
  pose proof (run_errno World sys_mkdir (attempts sep path) (set_errno p 0)) as He.
  destruct (run sys_mkdir (set_errno p 0) (attempts sep path)) as [p' [r|]]
    eqn:Hrun.
  - destruct (run_some_fails World sys_mkdir _ _ _ _ Hrun) as [-> _].
    specialize (He p' (Some (-1)) eq_refl (or_introl eq_refl)).
    simpl. split; [discriminate | intros _; exact He].
  - specialize (He p' None eq_refl (or_introl eq_refl)).
    simpl. split; [intros _; exact He | discriminate].
Qed.

Lemma mkdirAll_errno_after_witness :
  errno (fst (mkdirAll "/" (Tree.mkdir "/") {| world := ["a"]; errno := 13 |}
                       "a/b"))
  = EEXIST.
Proof.
  destruct (mkdirAll_errno_after "/" Tree.t (Tree.mkdir "/")
                                 {| world := ["a"]; errno := 13 |} "a/b"
                                 eq_refl) as [H0 _].
  destruct (H0 eq_refl) as [H|H]; [discriminate H | exact H].
Defined.

(** X9.  [mkdirAll] returns at the first call that fails with an [errno]
    other than EEXIST: the directory tree it leaves is the one that call
    left, [errno] is the one that call set, and nothing further along the
    path is attempted. *)
Theorem mkdirAll_stops_at_first_hard_failure :
  forall (sep : ascii) (World : Type)
         (sys_mkdir : World -> string -> World * option Z)
         (p : Process World) (path : string),
    Str.size path < 2 ^ UINT_WIDTH ->
    snd (mkdirAll sep sys_mkdir p path) = -1 ->
    exists done d rest w1 w2 e,
      attempts sep path = (done ++ d :: rest)%list /\
      benign sys_mkdir (world p) done w1 /\
      sys_mkdir w1 d = (w2, Some e) /\ e <> EEXIST /\
      fst (mkdirAll sep sys_mkdir p path) = {| world := w2; errno := e |}.
Proof.
  intros sep World sys_mkdir p path Hsz.
  rewrite (mkdirAll_run sep World sys_mkdir p path Hsz).
  destruct (run sys_mkdir (set_errno p 0) (attempts sep path)) as [p' [r|]]
    eqn:Hrun; simpl; [|discriminate].
  intros _. exact (run_some_state World sys_mkdir _ _ _ _ Hrun).
Qed.

(** With [a] in place and no [b], [mkdirAll("a/b/c/d")] creates [a/b],
    fails on [a/b/c] when that path is taken by something [_mkdir]
    cannot pass, and stops. *)
Lemma mkdirAll_stops_at_first_hard_failure_witness :
  let blocked (w : Tree.t) (d : string) :=
    if String.eqb d "a/b/c" then (w, Some ENOENT) else Tree.mkdir "/" w d in
  mkdirAll "/" blocked {| world := ["a"]; errno := 0 |} "a/b/c/d"
  = ({| world := ["a"; "a/b"]; errno := ENOENT |}, -1) /\
  exists w2 e,
    e <> EEXIST /\
    fst (mkdirAll "/" blocked {| world := ["a"]; errno := 0 |} "a/b/c/d")
    = {| world := w2; errno := e |}.
Proof.
  cbv zeta. split; [reflexivity|].
  destruct (mkdirAll_stops_at_first_hard_failure
              "/" Tree.t
              (fun w d => if String.eqb d "a/b/c" then (w, Some ENOENT)
                          else Tree.mkdir "/" w d)
              {| world := ["a"]; errno := 0 |} "a/b/c/d" eq_refl eq_refl)
    as (done & d & rest & w1 & w2 & e & _ & _ & _ & Hne & E).
  exists w2, e. split; [exact Hne | exact E].
Defined.

(** X10.  [mkdirAll] on a path with one more component is [mkdirAll] on
    the parent followed, when that returned 0, by one [_mkdir] of the
    whole path; a -1 from the parent is the result, in the state the
    parent left.  The last component may be empty (a trailing
    separator). *)
Theorem mkdirAll_parent_then_child :
  forall (sep : ascii) (World : Type)
         (sys_mkdir : World -> string -> World * option Z)
         (p : Process World) (parent child : string),
    Str.size (parent ++ String sep child) < 2 ^ UINT_WIDTH ->
    contains sep child = false ->
    mkdirAll sep sys_mkdir p (parent ++ String sep child) =
    let (p1, r1) := mkdirAll sep sys_mkdir p parent in
    if r1 =? 0 then
      let (p2, r2) := _mkdir sys_mkdir p1 (parent ++ String sep child) in
      (p2, if negb (r2 =? 0) && negb (errno p2 =? EEXIST) then -1 else 0)
    else (p1, r1).
Proof.
  intros sep World sys_mkdir p parent child Hsz Hc.
  assert (Hsz' : Str.size parent < 2 ^ UINT_WIDTH).
  { rewrite StrFacts.size_app in Hsz.
    pose proof (StrFacts.size_nonneg (String sep child)). lia. }
  rewrite (mkdirAll_run sep World sys_mkdir p _ Hsz).
  rewrite (mkdirAll_run sep World sys_mkdir p _ Hsz').
  rewrite (attempts_child sep parent child Hc), run_app.
  destruct (run sys_mkdir (set_errno p 0) (attempts sep parent)) as [p1 [r|]]
    eqn:Hrun.
  - destruct (run_some_fails World sys_mkdir _ _ _ _ Hrun) as [-> _].
    reflexivity.
  - simpl. destruct (_mkdir sys_mkdir p1 (parent ++ String sep child))
      as [p2 r2].
    now destruct (negb (r2 =? 0) && negb (errno p2 =? EEXIST)).
Qed.

Lemma mkdirAll_parent_then_child_witness :
  mkdirAll "/" (Tree.mkdir "/") {| world := []; errno := 0 |} "a/b/c"
  = ({| world := ["a"; "a/b"; "a/b/c"]; errno := 0 |}, 0).
Proof.
  refine (eq_trans (mkdirAll_parent_then_child
                      "/" Tree.t (Tree.mkdir "/")
                      {| world := []; errno := 0 |} "a/b" "c"
                      eq_refl eq_refl) _).
  reflexivity.
Defined.

(** X11.  On a path without a separator, the empty path included,
    [mkdirAll] makes the single call [_mkdir(path)] and returns 0 when it
    succeeds or fails with EEXIST, -1 otherwise. *)
Theorem mkdirAll_single_component :
  forall (sep : ascii) (World : Type)
         (sys_mkdir : World -> string -> World * option Z)
         (p : Process World) (path : string),
    Str.size path < 2 ^ UINT_WIDTH ->
    contains sep path = false ->
    mkdirAll sep sys_mkdir p path =
    let (p', r) := _mkdir sys_mkdir (set_errno p 0) path in
    (p', if negb (r =? 0) && negb (errno p' =? EEXIST) then -1 else 0).
Proof.
  intros sep World sys_mkdir p path Hsz Hc.
  rewrite (mkdirAll_run sep World sys_mkdir p _ Hsz).
  rewrite (attempts_single sep path Hc). simpl.
  destruct (_mkdir sys_mkdir (set_errno p 0) path) as [p' r].
  now destruct (negb (r =? 0) && negb (errno p' =? EEXIST)).
Qed.

Lemma mkdirAll_single_component_witness :
  mkdirAll "/" (Tree.mkdir "/") {| world := ["a"]; errno := 0 |} ""
  = ({| world := ["a"]; errno := ENOENT |}, -1).
Proof.
  rewrite (mkdirAll_single_component
             "/" Tree.t (Tree.mkdir "/") {| world := ["a"]; errno := 0 |} ""
             eq_refl eq_refl).
  reflexivity.
Defined.

(** X12.  One trailing separator on the directive makes no difference:
    the call on [t<sep>] appends the same paths, leaves the same string in
    [target] and ends the same way as the call on [t], for a non-empty
    [t] that does not itself end with the separator. *)
Theorem createFileList_trailing_separator :
  forall (sep : ascii) (fs : FileSystem) (fuel : nat) (t : string)
         (files : list string),
    t <> "" ->
    ends_with sep t = false ->
    createFileList sep fs (S fuel) (slash sep t) files
    = createFileList sep fs (S fuel) t files.
Proof.
  intros sep fs fuel t files Hne Hend. cbn [createFileList].
  unfold slash. rewrite strip_snoc, Ascii.eqb_refl.
  now rewrite (strip_keeps sep t Hne Hend).
Qed.

Lemma createFileList_trailing_separator_witness :
  createFileList "/" Examples.src_tree 2 "src/" []
  = ("src/", ["src/a.txt"; "src/b.txt"; "src/sub/c.txt"], Done).
Proof.
  refine (eq_trans (createFileList_trailing_separator
                      "/" Examples.src_tree 1 "src" [] _ eq_refl) _).
  - discriminate.
  - reflexivity.
Defined.

Lemma run_all_exist (World : Type)
      (sys_mkdir : World -> string -> World * option Z)
      (w : World) (ds : list string) :
  (forall d, In d ds -> sys_mkdir w d = (w, Some EEXIST)) ->
  ds <> [] ->
  forall e, run sys_mkdir {| world := w; errno := e |} ds
            = ({| world := w; errno := EEXIST |}, None).
Proof.
  induction ds as [|d ds IH]; intros Hall Hne e; [congruence|].
  rewrite run_step. simpl world. rewrite (Hall d (or_introl eq_refl)).
  simpl. destruct ds as [|d' ds]; [reflexivity|].
  apply IH; [|discriminate]. intros x Hx. apply Hall. now right.
Qed.

(** X13.  When every prefix before a separator and the path itself are
    there already, so that each [_mkdir] fails with EEXIST and changes
    nothing, [mkdirAll] returns 0, leaves the directory tree as it was
    and leaves EEXIST in [errno]. *)
Theorem mkdirAll_on_existing_chain :
  forall (sep : ascii) (World : Type)
         (sys_mkdir : World -> string -> World * option Z)
         (p : Process World) (path : string),
    Str.size path < 2 ^ UINT_WIDTH ->
    (forall d, d = path \/ (exists rest, path = d ++ String sep rest) ->
               sys_mkdir (world p) d = (world p, Some EEXIST)) ->
    mkdirAll sep sys_mkdir p path
    = ({| world := world p; errno := EEXIST |}, 0).
Proof.
  intros sep World sys_mkdir p path Hsz Hall.
  rewrite (mkdirAll_run sep World sys_mkdir p path Hsz).
  unfold set_errno.
  rewrite (run_all_exist World sys_mkdir (world p) (attempts sep path)).
  - reflexivity.
  - intros d Hd. apply Hall. now apply In_attempts.
  - unfold attempts. destruct (prefixes_from sep path 0 path); discriminate.
Qed.

Lemma mkdirAll_on_existing_chain_witness :
  mkdirAll "/" (Tree.mkdir "/") {| world := ["a"; "a/b"]; errno := 0 |} "a/b"
  = ({| world := ["a"; "a/b"]; errno := EEXIST |}, 0).
Proof.
  refine (mkdirAll_on_existing_chain
            "/" Tree.t (Tree.mkdir "/") {| world := ["a"; "a/b"]; errno := 0 |}
            "a/b" eq_refl _).
  intros d Hd.
  assert (Hin : In d (attempts "/" "a/b")) by now apply In_attempts.
  simpl in Hin. destruct Hin as [<-|[<-|[]]]; reflexivity.
Defined.

Lemma readdirLoop_app
      (fs : FileSystem)
      (recurse : string -> list string -> string * list string * outcome)
      (isRec : bool) (target : string) (pre post : list string) :
  forall files,
    readdirLoop fs recurse isRec target (pre ++ post) files =
    match readdirLoop fs recurse isRec target pre files with
    | (files1, Done) => readdirLoop fs recurse isRec target post files1
    | (files1, o) => (files1, o)
    end.
Proof.
  induction pre as [|d pre IH]; intros files; [reflexivity|].
  cbn [List.app readdirLoop].
  destruct (fs_stat fs (target ++ d)) as [m|]; [|reflexivity].
  destruct (negb (Ascii.eqb (Str.first d) ".")); [|apply IH].
  destruct (has_IFREG m); [apply IH|].
  destruct (isRec && has_IFDIR m); [|apply IH].
  destruct (recurse (target ++ d) files) as [[t1 f1] o1].
  destruct o1; try reflexivity. apply IH.
Qed.

(** X14.  A call on a subdirectory that does not complete ends the loop
    of the directory above it in the same way: the exception (or other
    ending) of the nested call is the ending of the loop, the accumulator
    is the one the nested call left, and the entries listed after the
    subdirectory are not visited. *)
Theorem readdirLoop_nested_failure :
  forall (fs : FileSystem)
         (recurse : string -> list string -> string * list string * outcome)
         (target : string) (pre : list string) (d_name : string)
         (post files files1 files2 : list string) (m : Z) (t2 : string)
         (o : outcome),
    readdirLoop fs recurse true target pre files = (files1, Done) ->
    fs_stat fs (target ++ d_name) = Some m ->
    entered d_name m = true ->
    recurse (target ++ d_name) files1 = (t2, files2, o) ->
    o <> Done ->
    readdirLoop fs recurse true target (pre ++ d_name :: post) files
    = (files2, o).
Proof.
  intros fs recurse target pre d post files files1 files2 m t2 o
         Hpre Hst He Hrec Ho.
  rewrite readdirLoop_app, Hpre. cbn [readdirLoop].
  unfold entered in He. apply andb_prop in He as [He Hdir].
  apply andb_prop in He as [Hh Hreg]. apply negb_true_iff in Hreg.
  unfold hidden in Hh.
  rewrite Hst, Hh, Hreg, Hdir, Hrec. cbn [andb].
  destruct o; congruence.
Qed.

(** A directory [top] lists [a.txt], the subdirectory [locked], which
    [opendir] refuses, and [z.txt]: the call throws the read-file error
    for [top/locked/] with [top/a.txt] appended. *)
Lemma readdirLoop_nested_failure_witness :
  createFileList "/" Examples.locked_tree 2 "top" []
  = ("top/", ["top/a.txt"], Raised (cannot_read "top/locked/")).
Proof.
  pose proof (readdirLoop_nested_failure
                Examples.locked_tree (createFileList "/" Examples.locked_tree 1)
                "top/" [ "a.txt" ] "locked" [ "z.txt" ] [] [ "top/a.txt" ]
                [ "top/a.txt" ] Examples.dir "top/locked/"
                (Raised (cannot_read "top/locked/"))
                eq_refl eq_refl eq_refl eq_refl ltac:(discriminate)) as H.
  change (createFileList "/" Examples.locked_tree 2 "top" [])
    with (let (files', o) :=
            readdirLoop Examples.locked_tree
                        (createFileList "/" Examples.locked_tree 1) true
                        "top/" ([ "a.txt" ] ++ "locked" :: [ "z.txt" ]) [] in
          ("top/", files', o)).
  now rewrite H.
Defined.
